(** * dev-events: the persistence layer of the event-booking application

    A shallow embedding of the three source files of the repository

    - [database/event.model.ts]: [generateSlug], [normalizeDate],
      [normalizeTime] and the Event pre-save hook;
    - the connection helper [connectToDatabase] with its process-wide cache;
    - the Booking model: [emailRegex] and the Booking pre-save hook;

    followed by the properties the specification states about them.

    Conventions of the embedding.

    - A JavaScript string is a [list ascii]: each character stands for the
      UTF-16 code unit of the same value, so the strings covered are those
      over U+0000..U+00FF.  On that range [toLowerCase] is a map on single
      characters and the white space of [trim] and [\s] is the seven
      characters of [is_space].
    - A function that can throw returns a [result]: [Ok v] or [Throw msg]
      with the message of the [Error] thrown.
    - Numbers that the code handles are integers far below 2^53, modelled
      in [Z]. *)

From Stdlib Require Import ZArith Ascii String Lia.
From stdpp Require Import base option list gmap.

Local Open Scope string_scope.
Local Open Scope list_scope.
Local Open Scope Z_scope.

(** String literals are read as lists of characters. *)
Coercion list_ascii_of_string : string >-> list.

Abbreviation jsstring := (list ascii).

(** ** Results of code that may throw *)

Inductive result (A : Type) : Type :=
| Ok (value : A)
| Throw (message : jsstring).
Arguments Ok {A} & value.
Arguments Throw {A} message.

(** ** Characters and the string primitives of the runtime *)

Module Js.

Definition code (c : ascii) : N := N_of_ascii c.

Definition between (lo hi : N) (c : ascii) : bool :=
  ((lo <=? code c) && (code c <=? hi))%N.

(** [\d]: the ten ASCII digits. *)
Definition is_digit (c : ascii) : bool := between 48 57 c.

(** [a-z] *)
Definition is_lower (c : ascii) : bool := between 97 122 c.

(** [A-Z] *)
Definition is_upper (c : ascii) : bool := between 65 90 c.

(** [\s], and the characters [trim] strips: TAB, LF, VT, FF, CR, SPACE
    and, in the range covered, NO-BREAK SPACE. *)
Definition is_space (c : ascii) : bool :=
  between 9 13 c || (code c =? 32)%N || (code c =? 160)%N.

Definition is_dash (c : ascii) : bool := (code c =? 45)%N.

Definition is_char (x : ascii) (c : ascii) : bool := (code c =? code x)%N.

(** [String.prototype.toLowerCase] on one code unit of U+0000..U+00FF:
    [A-Z], and the Latin-1 capitals U+00C0..U+00DE other than the
    multiplication sign U+00D7, move 32 places up. *)
Definition lower_char (c : ascii) : ascii :=
  if is_upper c || (between 192 222 c && negb (code c =? 215)%N)
  then ascii_of_N (code c + 32)
  else c.

Definition toLowerCase (s : jsstring) : jsstring := map lower_char s.

Fixpoint trimStart (s : jsstring) : jsstring :=
  match s with
  | c :: s' => if is_space c then trimStart s' else s
  | [] => []
  end.

Definition trimEnd (s : jsstring) : jsstring := rev (trimStart (rev s)).

(** [String.prototype.trim] *)
Definition trim (s : jsstring) : jsstring := trimEnd (trimStart s).

(** [s.replace(/[cls]/g, "")]: every character of the class is dropped. *)
Definition remove_all (cls : ascii -> bool) (s : jsstring) : jsstring :=
  List.filter (fun c => negb (cls c)) s.

(** [s.replace(/[cls]+/g, by)]: scanning from the left, each maximal run
    of characters of the class is replaced by [by].  [in_run] tells that
    the previous character belonged to a run already replaced. *)
Fixpoint replace_runs_from (cls : ascii -> bool) (by_ : jsstring)
    (in_run : bool) (s : jsstring) : jsstring :=
  match s with
  | [] => []
  | c :: s' =>
      if cls c then
        if in_run then replace_runs_from cls by_ true s'
        else by_ ++ replace_runs_from cls by_ true s'
      else c :: replace_runs_from cls by_ false s'
  end.

Definition replace_runs (cls : ascii -> bool) (by_ s : jsstring) : jsstring :=
  replace_runs_from cls by_ false s.

(** [Number(s)] for a non-empty string of ASCII digits, the only strings
    the captures of [\d{1,2}] and [\d{2}] hold. *)
Definition digit_value (c : ascii) : Z := Z.of_N (code c) - 48.

Definition Number (s : jsstring) : Z :=
  fold_left (fun acc c => 10 * acc + digit_value c) s 0.

Definition digit_char (d : Z) : ascii := ascii_of_N (Z.to_N (48 + d)).

(** The decimal digits of a natural number, most significant first. *)
Fixpoint decimal (fuel : nat) (n : Z) (acc : jsstring) : jsstring :=
  let acc' := digit_char (n mod 10) :: acc in
  match fuel with
  | O => acc'
  | S fuel' => if n <? 10 then acc' else decimal fuel' (n / 10) acc'
  end.

(** [Number.prototype.toString] on an integer. *)
Definition toString (n : Z) : jsstring :=
  if n <? 0 then "-"%char :: decimal (Z.to_nat (Z.log2 (- n))) (- n) []
  else decimal (Z.to_nat (Z.log2 n)) n [].

(** [s.padStart(n, fill)] with a one-character [fill]. *)
Definition padStart (n : nat) (fill : ascii) (s : jsstring) : jsstring :=
  replicate (n - length s) fill ++ s.

End Js.

(** ** Regular expressions

    The patterns of the repository are sequences of character classes
    under greedy bounded or unbounded repetition, capturing groups and
    optional non-capturing groups.  [exec] is the backtracking matcher of
    the runtime in continuation-passing style: the continuation receives
    the rest of the input and the captures made so far, and a failure of
    the continuation makes the matcher try its next alternative. *)

Module Regex.

Inductive regex : Type :=
| Rep (cls : ascii -> bool) (lo : nat) (hi : option nat)
    (** [cls{lo,hi}], greedy; [hi = None] when there is no upper bound *)
| Seq (r1 r2 : regex)
| Group (i : nat) (r : regex)   (** the [i]-th capturing group [(r)] *)
| Opt (r : regex).              (** [(?:r)?], greedy *)

Definition Chr (c : ascii) : regex := Rep (Js.is_char c) 1 (Some 1%nat).
Definition Plus (cls : ascii -> bool) : regex := Rep cls 1 None.
Definition Times (n : nat) (cls : ascii -> bool) : regex := Rep cls n (Some n).

Abbreviation captures := (gmap nat jsstring).

Definition cont : Type := jsstring -> captures -> option captures.

Fixpoint exec_rep (cls : ascii -> bool) (lo : nat) (hi : option nat)
    (s : jsstring) (caps : captures) (k : cont) : option captures :=
  let stop := match lo with O => k s caps | S _ => None end in
  match hi, s with
  | Some O, _ => stop
  | _, [] => stop
  | _, c :: s' =>
      if cls c then
        match exec_rep cls (Nat.pred lo) (Nat.pred <$> hi) s' caps k with
        | Some out => Some out
        | None => stop
        end
      else stop
  end.

Fixpoint exec (r : regex) (s : jsstring) (caps : captures) (k : cont)
    : option captures :=
  match r with
  | Rep cls lo hi => exec_rep cls lo hi s caps k
  | Seq r1 r2 => exec r1 s caps (fun s1 caps1 => exec r2 s1 caps1 k)
  | Group i r =>
      exec r s caps
        (fun s1 caps1 => k s1 (<[i := take (length s - length s1) s]> caps1))
  | Opt r =>
      match exec r s caps k with
      | Some out => Some out
      | None => k s caps
      end
  end.

(** The end-of-input assertion [$] (no [m] flag). *)
Definition at_end : cont :=
  fun rest caps => match rest with [] => Some caps | _ :: _ => None end.

(** [s.match(/^r$/)]: with the assertion [^] and no [m] flag, only the
    attempt at index 0 can succeed.  [None] is the [null] of a failed
    match; otherwise the captures by group number. *)
Definition String_match (r : regex) (s : jsstring) : option captures :=
  exec r s ∅ at_end.

(** [/^r$/.test(s)] *)
Definition test (r : regex) (s : jsstring) : bool :=
  bool_decide (is_Some (String_match r s)).

(** [m[i]] of a match array. *)
Definition group (m : captures) (i : nat) : jsstring := default [] (m !! i).

(** What the matcher computes, as a relation: [matches r s caps caps']
    when [r] can consume exactly [s], turning the captures [caps] into
    [caps']. *)
Definition in_bounds (lo : nat) (hi : option nat) (n : nat) : Prop :=
  (lo <= n)%nat /\ match hi with Some h => (n <= h)%nat | None => True end.

Inductive matches : regex -> jsstring -> captures -> captures -> Prop :=
| matches_rep cls lo hi s caps :
    in_bounds lo hi (length s) ->
    forallb cls s = true ->
    matches (Rep cls lo hi) s caps caps
| matches_seq r1 r2 s1 s2 caps caps1 caps2 :
    matches r1 s1 caps caps1 ->
    matches r2 s2 caps1 caps2 ->
    matches (Seq r1 r2) (s1 ++ s2) caps caps2
| matches_group i r s caps caps1 :
    matches r s caps caps1 ->
    matches (Group i r) s caps (<[i := s]> caps1)
| matches_opt_some r s caps caps1 :
    matches r s caps caps1 ->
    matches (Opt r) s caps caps1
| matches_opt_none r caps :
    matches (Opt r) [] caps caps.

End Regex.

(** ** [database/event.model.ts] *)

Import Js Regex.

(** [/^(\d{1,2}):(\d{2})(?::\d{2})?$/] *)
Definition timeRegex : regex :=
  Seq (Group 1 (Rep is_digit 1 (Some 2%nat)))
    (Seq (Chr ":")
       (Seq (Group 2 (Times 2 is_digit))
          (Opt (Seq (Chr ":") (Times 2 is_digit))))).

(** Normalize time to 24h HH:mm format. *)
Definition normalizeTime (value : jsstring) : result jsstring :=
  let trimmed := trim value in
  match String_match timeRegex trimmed with
  | None => Throw "Invalid event time format (expected HH:mm)"
  | Some m =>
      let hours := Number (group m 1) in
      let minutes := Number (group m 2) in
      if (hours <? 0) || (hours >? 23) || (minutes <? 0) || (minutes >? 59)
      then Throw "Invalid event time value"
      else
        let hh := padStart 2 "0" (toString hours) in
        let mm := padStart 2 "0" (toString minutes) in
        Ok (hh ++ ":" ++ mm)
  end.

(** Generate a URL-friendly slug from a title. *)
Definition generateSlug (title : jsstring) : jsstring :=
  let kept c := is_lower c || is_digit c || is_space c || is_dash c in
  replace_runs is_dash "-"
    (replace_runs is_space "-"
       (remove_all (fun c => negb (kept c))
          (trim (toLowerCase title)))).

(** *** Dates

    [new Date(value)], [getTime] and [toISOString] belong to the runtime.
    A time value is a number of milliseconds since the epoch; the [NaN] of
    an invalid date is [None].  [parse_iso] reads the date-time string
    format every runtime must accept (calendar date, [YYYY], [YYYY-MM] or
    [YYYY-MM-DD] with a four-digit or a signed six-digit year, then
    nothing, which means UTC, or [T], a time of day and [Z] or an offset
    [+HH:mm] / [-HH:mm]).  What a runtime does with any other string (a
    date-time without offset, read in the local time zone of the host,
    and the formats it accepts besides) is the parameter [host_parse] of
    [parse]. *)

Module Date.

Definition msPerDay : Z := 86400000.

(** Days from 1970-01-01 to the day [d] of month [m] of year [y] in the
    proleptic Gregorian calendar. *)
Definition days_from_civil (y m d : Z) : Z :=
  let y' := if m <=? 2 then y - 1 else y in
  let era := y' / 400 in
  let yoe := y' - era * 400 in
  let mp := if m <=? 2 then m + 9 else m - 3 in
  let doy := (153 * mp + 2) / 5 + d - 1 in
  let doe := yoe * 365 + yoe / 4 - yoe / 100 + doy in
  era * 146097 + doe - 719468.

(** The inverse: year, month and day of the [z]-th day from 1970-01-01. *)
Definition civil_from_days (z : Z) : Z * Z * Z :=
  let z' := z + 719468 in
  let era := z' / 146097 in
  let doe := z' - era * 146097 in
  let yoe := (doe - doe / 1460 + doe / 36524 - doe / 146096) / 365 in
  let doy := doe - (365 * yoe + yoe / 4 - yoe / 100) in
  let mp := (5 * doy + 2) / 153 in
  let d := doy - (153 * mp + 2) / 5 + 1 in
  let m := if mp <? 10 then mp + 3 else mp - 9 in
  let y := yoe + era * 400 in
  (if m <=? 2 then y + 1 else y, m, d).

Definition is_leap (y : Z) : bool :=
  (y mod 4 =? 0) && (negb (y mod 100 =? 0) || (y mod 400 =? 0)).

Definition days_in_month (y m : Z) : Z :=
  if m =? 2 then (if is_leap y then 29 else 28)
  else if (m =? 4) || (m =? 6) || (m =? 9) || (m =? 11) then 30
  else 31.

(** Exactly [n] digits at the head of [s]: their value and the rest. *)
Definition digits (n : nat) (s : jsstring) : option (Z * jsstring) :=
  let d := take n s in
  if (length d =? n)%nat && forallb is_digit d
  then Some (Number d, drop n s)
  else None.

Definition parse_year (s : jsstring) : option (Z * jsstring) :=
  match s with
  | "+"%char :: s' => digits 6 s'
  | "-"%char :: s' =>
      '(y, rest) ← digits 6 s';
      if y =? 0 then None else Some (- y, rest)
  | _ => digits 4 s
  end.

(** The optional [-MM] and [-DD]; an absent field counts as 1. *)
Definition parse_month_day (s : jsstring) : option (Z * Z * jsstring) :=
  match s with
  | "-"%char :: s1 =>
      '(m, s2) ← digits 2 s1;
      match s2 with
      | "-"%char :: s3 => '(d, s4) ← digits 2 s3; Some (m, d, s4)
      | _ => Some (m, 1, s2)
      end
  | _ => Some (1, 1, s)
  end.

(** [HH:mm], [HH:mm:ss] or [HH:mm:ss.sss]: the milliseconds since
    midnight and the rest. *)
Definition parse_time_of_day (s : jsstring) : option (Z * jsstring) :=
  '(h, s1) ← digits 2 s;
  match s1 with
  | ":"%char :: s2 =>
      '(mi, s3) ← digits 2 s2;
      '(sec, ms, s4) ←
        match s3 with
        | ":"%char :: s4 =>
            '(sec, s5) ← digits 2 s4;
            match s5 with
            | "."%char :: s6 => '(ms, s7) ← digits 3 s6; Some (sec, ms, s7)
            | _ => Some (sec, 0, s5)
            end
        | _ => Some (0, 0, s3)
        end;
      if (h <=? 23) && (mi <=? 59) && (sec <=? 59)
      then Some (((h * 60 + mi) * 60 + sec) * 1000 + ms, s4)
      else None
  | _ => None
  end.

(** [Z], [+HH:mm] or [-HH:mm] up to the end of the string: the offset
    from UTC in milliseconds. *)
Definition parse_offset (s : jsstring) : option Z :=
  let hhmm (s1 : jsstring) : option Z :=
    '(h, s2) ← digits 2 s1;
    match s2 with
    | ":"%char :: s3 =>
        '(mi, s4) ← digits 2 s3;
        match s4 with
        | [] => if (h <=? 23) && (mi <=? 59)
                then Some ((h * 60 + mi) * 60000) else None
        | _ :: _ => None
        end
    | _ => None
    end in
  match s with
  | ["Z"%char] => Some 0
  | "+"%char :: s1 => hhmm s1
  | "-"%char :: s1 => Z.opp <$> hhmm s1
  | _ => None
  end.

(** [TimeClip]: a time value lies within 8.64e15 ms of the epoch. *)
Definition TimeClip (t : Z) : option Z :=
  if Z.abs t <=? 8640000000000000 then Some t else None.

Definition parse_iso (s : jsstring) : option Z :=
  '(y, s1) ← parse_year s;
  '(m, d, s2) ← parse_month_day s1;
  if (1 <=? m) && (m <=? 12) && (1 <=? d) && (d <=? days_in_month y m) then
    let day := days_from_civil y m d in
    match s2 with
    | [] => TimeClip (day * msPerDay)
    | "T"%char :: s3 =>
        '(ms, s4) ← parse_time_of_day s3;
        offset ← parse_offset s4;
        TimeClip (day * msPerDay + ms - offset)
    | _ => None
    end
  else None.

(** [Date.parse], and so [new Date(value).getTime()] for a string. *)
Definition parse (host_parse : jsstring -> option Z) (s : jsstring)
    : option Z :=
  match parse_iso s with
  | Some t => Some t
  | None => host_parse s
  end.

Definition pad (n : nat) (z : Z) : jsstring := padStart n "0" (toString z).

(** [Date.prototype.toISOString] of a valid date: the year has four
    digits from 0 to 9999, and a sign and six digits otherwise. *)
Definition toISOString (t : Z) : jsstring :=
  let ms := t mod msPerDay in
  let '(y, m, d) := civil_from_days (t / msPerDay) in
  let year :=
    if (0 <=? y) && (y <=? 9999) then pad 4 y
    else (if y <? 0 then "-"%char else "+"%char) :: pad 6 (Z.abs y) in
  year ++ "-" ++ pad 2 m ++ "-" ++ pad 2 d ++ "T"
    ++ pad 2 (ms / 3600000) ++ ":" ++ pad 2 (ms / 60000 mod 60) ++ ":"
    ++ pad 2 (ms / 1000 mod 60) ++ "." ++ pad 3 (ms mod 1000) ++ "Z".

(** [s.split(sep)[0]]: the part of [s] before the first [sep]. *)
Fixpoint split_head (sep : ascii) (s : jsstring) : jsstring :=
  match s with
  | [] => []
  | c :: s' => if is_char sep c then [] else c :: split_head sep s'
  end.

End Date.

(** Normalize date to an ISO date string (YYYY-MM-DD). *)
Definition normalizeDate (host_parse : jsstring -> option Z)
    (value : jsstring) : result jsstring :=
  match Date.parse host_parse value with
  | None => Throw "Invalid event date"
  | Some t => Ok (Date.split_head "T" (Date.toISOString t))
  end.

(** *** The Event document and its pre-save hook *)

(** The values a path of a document can hold as far as the hooks tell
    them apart: a string, an array, or anything else ([undefined],
    [null], ...). *)
#[warnings="-register-all"]
Inductive jsval : Type :=
| Undefined
| Str (s : jsstring)
| Arr (items : list jsval).

Module Event.

Record EventDocument : Type := {
  title : jsval;
  slug : jsval;
  description : jsval;
  overview : jsval;
  image : jsval;
  venue : jsval;
  location : jsval;
  date : jsval;
  time : jsval;
  mode : jsval;
  audience : jsval;
  agenda : jsval;
  organizer : jsval;
  tags : jsval
}.

(** [keyof EventAttrs] *)
Inductive field : Type :=
| Title | Slug | Description | Overview | Image | Venue | Location
| Date | Time | Mode | Audience | Agenda | Organizer | Tags.

Definition field_name (f : field) : jsstring :=
  match f with
  | Title => "title" | Slug => "slug" | Description => "description"
  | Overview => "overview" | Image => "image" | Venue => "venue"
  | Location => "location" | Date => "date" | Time => "time"
  | Mode => "mode" | Audience => "audience" | Agenda => "agenda"
  | Organizer => "organizer" | Tags => "tags"
  end.

(** [this[field]] *)
Definition get (doc : EventDocument) (f : field) : jsval :=
  match f with
  | Title => title doc | Slug => slug doc | Description => description doc
  | Overview => overview doc | Image => image doc | Venue => venue doc
  | Location => location doc | Date => date doc | Time => time doc
  | Mode => mode doc | Audience => audience doc | Agenda => agenda doc
  | Organizer => organizer doc | Tags => tags doc
  end.

Definition requiredStringFields : list field :=
  [Title; Description; Overview; Image; Venue; Location; Date; Time; Mode;
   Audience; Organizer].

Definition requiredArrayFields : list field := [Agenda; Tags].

(** The double quote of the messages. *)
Definition dq : ascii := ascii_of_N 34.

Definition quoted (name : jsstring) : jsstring := dq :: name ++ [dq].

(** [typeof value !== "string" || value.trim().length === 0] *)
Definition blank (value : jsval) : bool :=
  match value with
  | Str s => (length (trim s) =? 0)%nat
  | _ => true
  end.

(** The body of the loop over [requiredStringFields]. *)
Definition check_string_field (doc : EventDocument) (f : field)
    : result unit :=
  if blank (get doc f)
  then Throw ("Field " ++ quoted (field_name f) ++ " is required")
  else Ok tt.

(** The body of the loop over [requiredArrayFields]. *)
Definition check_array_field (doc : EventDocument) (f : field)
    : result unit :=
  match get doc f with
  | Arr value =>
      if (length value =? 0)%nat
      then Throw ("Field " ++ quoted (field_name f)
                    ++ " must be a non-empty array")
      else if existsb blank value
      then Throw ("Field " ++ quoted (field_name f)
                    ++ " must contain only non-empty strings")
      else Ok tt
  | _ => Throw ("Field " ++ quoted (field_name f)
                  ++ " must be a non-empty array")
  end.

(** [for (const field of fields) { ... }]: the first throw ends the loop. *)
Fixpoint for_each (body : field -> result unit) (fields : list field)
    : result unit :=
  match fields with
  | [] => Ok tt
  | f :: rest =>
      match body f with
      | Ok _ => for_each body rest
      | Throw msg => Throw msg
      end
  end.

(** [!v] for the values of a string path. *)
Definition falsy (v : jsval) : bool :=
  match v with
  | Undefined => true
  | Str s => (length s =? 0)%nat
  | Arr _ => false
  end.

(** The string a path holds; the hook reads [date], [time] and [title]
    only after the loop above has found strings there. *)
Definition string_of (v : jsval) : jsstring :=
  match v with Str s => s | _ => [] end.

Definition set_date (doc : EventDocument) (v : jsstring) : EventDocument :=
  {| title := title doc; slug := slug doc; description := description doc;
     overview := overview doc; image := image doc; venue := venue doc;
     location := location doc; date := Str v; time := time doc;
     mode := mode doc; audience := audience doc; agenda := agenda doc;
     organizer := organizer doc; tags := tags doc |}.

Definition set_time (doc : EventDocument) (v : jsstring) : EventDocument :=
  {| title := title doc; slug := slug doc; description := description doc;
     overview := overview doc; image := image doc; venue := venue doc;
     location := location doc; date := date doc; time := Str v;
     mode := mode doc; audience := audience doc; agenda := agenda doc;
     organizer := organizer doc; tags := tags doc |}.

Definition set_slug (doc : EventDocument) (v : jsstring) : EventDocument :=
  {| title := title doc; slug := Str v; description := description doc;
     overview := overview doc; image := image doc; venue := venue doc;
     location := location doc; date := date doc; time := time doc;
     mode := mode doc; audience := audience doc; agenda := agenda doc;
     organizer := organizer doc; tags := tags doc |}.

(** Pre-save hook: validate required fields, normalize date/time,
    generate slug.  [titleModified] is [this.isModified("title")]; the
    result is the document handed to [next()], or the error handed to
    [next(err)]. *)
Definition preSave (host_parse : jsstring -> option Z)
    (titleModified : bool) (doc : EventDocument) : result EventDocument :=
  match for_each (check_string_field doc) requiredStringFields with
  | Throw err => Throw err
  | Ok _ =>
  match for_each (check_array_field doc) requiredArrayFields with
  | Throw err => Throw err
  | Ok _ =>
  match normalizeDate host_parse (string_of (date doc)) with
  | Throw err => Throw err
  | Ok d =>
  let doc := set_date doc d in
  match normalizeTime (string_of (time doc)) with
  | Throw err => Throw err
  | Ok t =>
  let doc := set_time doc t in
  if titleModified || falsy (slug doc)
  then Ok (set_slug doc (generateSlug (string_of (title doc))))
  else Ok doc
  end end end end.

End Event.

(** ** The connection helper

    The cache is the global [{conn, promise}].  A promise is named by
    the rank of the [mongoose.connect] call that made it, and [attempts]
    records for each what has become of it.  [connectToDatabase] is an
    async function with one [await]: [enter] is its body up to the
    [await], [resume] the rest, run once the awaited promise is
    settled. *)

Module Connection.

Abbreviation connection := N.
Abbreviation promise_id := nat.

Inductive settlement : Type :=
| Pending
| Fulfilled (c : connection)
| Rejected (error : jsstring).

Record cache : Type := {
  conn : option connection;
  promise : option promise_id
}.

Record world : Type := {
  cached : cache;
  attempts : list settlement
}.

(** How an invocation stands: suspended at its [await], or finished. *)
Inductive outcome : Type :=
| Awaiting (p : promise_id)
| Returned (c : connection)
| Thrown (error : jsstring).

(** [cached = global.mongoose = { conn: null, promise: null }] *)
Definition initial : world :=
  {| cached := {| conn := None; promise := None |}; attempts := [] |}.

(** From the call to the [await]. *)
Definition enter (w : world) : world * outcome :=
  match conn (cached w) with
  | Some c => (w, Returned c)
  | None =>
      match promise (cached w) with
      | Some p => (w, Awaiting p)
      | None =>
          let p := length (attempts w) in
          ({| cached := {| conn := None; promise := Some p |};
              attempts := attempts w ++ [Pending] |},
           Awaiting p)
      end
  end.

(** From the [await] on: with the value of the promise the connection is
    stored and returned, with its error the cached promise is cleared
    and the error thrown again.  [None] while the promise is pending. *)
Definition resume (p : promise_id) (w : world) : option (world * outcome) :=
  match attempts w !! p with
  | Some (Fulfilled c) =>
      Some ({| cached := {| conn := Some c; promise := promise (cached w) |};
               attempts := attempts w |},
            Returned c)
  | Some (Rejected error) =>
      Some ({| cached := {| conn := conn (cached w); promise := None |};
               attempts := attempts w |},
            Thrown error)
  | Some Pending | None => None
  end.

(** The driver settles a pending attempt, once. *)
Definition settle (p : promise_id) (r : settlement) (w : world) : world :=
  match attempts w !! p with
  | Some Pending => {| cached := cached w; attempts := <[p := r]> (attempts w) |}
  | _ => w
  end.

(** A run of the process: calls, settlements of attempts, and
    continuations of suspended calls, in any order.  [calls] keeps how
    each invocation stands, by rank. *)
Inductive event : Type :=
| Call
| Settle (p : promise_id) (r : settlement)
| Continue (i : nat).

Record process : Type := {
  state : world;
  calls : list outcome
}.

Definition start : process := {| state := initial; calls := [] |}.

Definition step (pr : process) (e : event) : process :=
  match e with
  | Call =>
      let '(w, o) := enter (state pr) in
      {| state := w; calls := calls pr ++ [o] |}
  | Settle p r => {| state := settle p r (state pr); calls := calls pr |}
  | Continue i =>
      match calls pr !! i with
      | Some (Awaiting p) =>
          match resume p (state pr) with
          | Some (w, o) => {| state := w; calls := <[i := o]> (calls pr) |}
          | None => pr
          end
      | _ => pr
      end
  end.

Definition run (pr : process) (events : list event) : process :=
  fold_left step events pr.

End Connection.

(** ** The Booking model *)

Module Booking.

Abbreviation ObjectId := N.

Record BookingDocument : Type := {
  eventId : ObjectId;
  email : jsstring
}.

(** [[^\s@]] *)
Definition not_space_at (c : ascii) : bool :=
  negb (is_space c || is_char "@" c).

(** [/^[^\s@]+@[^\s@]+\.[^\s@]+$/] *)
Definition emailRegex : regex :=
  Seq (Plus not_space_at)
    (Seq (Chr "@")
       (Seq (Plus not_space_at)
          (Seq (Chr ".") (Plus not_space_at)))).

(** [Event.exists({ _id })] on the Event collection. *)
Definition Event_exists (events : gmap ObjectId Event.EventDocument)
    (id : ObjectId) : bool :=
  bool_decide (is_Some (events !! id)).

(** Pre-save hook: validate email and ensure referenced event exists. *)
Definition preSave (events : gmap ObjectId Event.EventDocument)
    (doc : BookingDocument) : result unit :=
  if negb (test emailRegex (email doc))
  then Throw "Invalid email address"
  else if negb (Event_exists events (eventId doc))
  then Throw "Referenced event does not exist"
  else Ok tt.

End Booking.

(** ** Vocabulary of the statements *)

Definition all_digits (s : jsstring) : Prop := forallb is_digit s = true.

(** The strings [timeRegex] accepts: [s] reads [h:m] or [h:m:ss], the
    hour [h] of one or two digits, the minute [m] and the second [ss] of
    two digits each. *)
Definition time_shape (s h m : jsstring) : Prop :=
  (length h = 1 \/ length h = 2)%nat /\ length m = 2%nat
  /\ all_digits h /\ all_digits m
  /\ (s = h ++ ":" ++ m
      \/ exists ss, length ss = 2%nat /\ all_digits ss
                    /\ s = h ++ ":" ++ m ++ ":" ++ ss).

(** The hour as [normalizeTime] prints it: two digits. *)
Definition two_digits (h : jsstring) : jsstring :=
  match h with [d] => ["0"%char; d] | _ => h end.

(** The shapes of a time as the specification words them: [H:MM],
    [HH:MM] or [HH:MM:SS]. *)
Definition spec_time_shape (s : jsstring) : bool :=
  match s with
  | [h; ":"; m1; m2]%char => forallb is_digit [h; m1; m2]
  | [h1; h2; ":"; m1; m2]%char => forallb is_digit [h1; h2; m1; m2]
  | [h1; h2; ":"; m1; m2; ":"; s1; s2]%char =>
      forallb is_digit [h1; h2; m1; m2; s1; s2]
  | _ => false
  end.

(** The characters of a slug: [a-z0-9-]. *)
Definition slug_char (c : ascii) : bool := is_lower c || is_digit c || is_dash c.

(** The characters of a word of a title: [a-z0-9]. *)
Definition word_char (c : ascii) : bool := is_lower c || is_digit c.

(** The steps of slug generation as the specification lists them: the
    title is lowercased, the characters other than letters, digits, white
    space and dashes are stripped, every run of white space becomes one
    dash, and repeated dashes become one. *)
Definition spec_generateSlug (title : jsstring) : jsstring :=
  let lowered := toLowerCase title in
  let stripped :=
    List.filter (fun c => word_char c || is_space c || is_dash c) lowered in
  let dashed := replace_runs is_space "-" stripped in
  replace_runs is_dash "-" dashed.

(** A slug read off a lowercased, trimmed title in one pass: a letter or
    a digit is kept, a run of white space and dashes gives one dash, and
    any other character is dropped without ending the run it stands
    in. *)
Fixpoint slug_from (in_run : bool) (s : jsstring) : jsstring :=
  match s with
  | [] => []
  | c :: s' =>
      if word_char c then c :: slug_from false s'
      else if is_space c || is_dash c then
        if in_run then slug_from true s' else "-"%char :: slug_from true s'
      else slug_from in_run s'
  end.

(** No dash next to a dash. *)
Fixpoint no_double_dash (s : jsstring) : bool :=
  match s with
  | [] => true
  | c1 :: s' =>
      match s' with
      | c2 :: _ => negb (is_dash c1 && is_dash c2)
      | [] => true
      end && no_double_dash s'
  end.

(** The addresses [emailRegex] accepts: [local@domain.tld], each part
    non-empty and free of white space and of [@]. *)
Definition email_shape (s : jsstring) : Prop :=
  exists l d t,
    s = l ++ "@" ++ d ++ "." ++ t
    /\ l <> [] /\ d <> [] /\ t <> []
    /\ forallb Booking.not_space_at l = true
    /\ forallb Booking.not_space_at d = true
    /\ forallb Booking.not_space_at t = true.

(** No attempt of the run is settled with an error. *)
Definition no_rejection (events : list Connection.event) : bool :=
  forallb (fun e => match e with
                    | Connection.Settle _ (Connection.Rejected _) => false
                    | _ => true
                    end) events.

(** What holds of a process along a run without rejection: one attempt
    at most, which the cache points to, and which has been fulfilled
    with the connection the cache holds and the calls have returned. *)
Definition single_attempt (pr : Connection.process) : Prop :=
  let w := Connection.state pr in
  (length (Connection.attempts w) <= 1)%nat
  /\ (Connection.promise (Connection.cached w) = None ->
      Connection.attempts w = [])
  /\ (forall p, Connection.promise (Connection.cached w) = Some p ->
      p = 0%nat /\ length (Connection.attempts w) = 1%nat)
  /\ (forall c, Connection.conn (Connection.cached w) = Some c ->
      Connection.attempts w !! 0%nat = Some (Connection.Fulfilled c))
  /\ (forall i c, Connection.calls pr !! i = Some (Connection.Returned c) ->
      Connection.attempts w !! 0%nat = Some (Connection.Fulfilled c))
  /\ (forall p e, Connection.attempts w !! p <> Some (Connection.Rejected e)).

(** The state after one call whose attempt has been refused. *)
Definition refused_world : Connection.world :=
  Connection.state
    (Connection.run Connection.start
       [Connection.Call;
        Connection.Settle 0 (Connection.Rejected "ECONNREFUSED")]).

(** [agenda] or [tags] is not a non-empty array of strings that are
    non-empty after trimming. *)
Definition bad_array (v : jsval) : bool :=
  match v with
  | Arr items => (length items =? 0)%nat || existsb Event.blank items
  | _ => true
  end.

(** The field [f] of [doc] breaks the rule the hook checks for it. *)
Definition offending (doc : Event.EventDocument) (f : Event.field) : bool :=
  match f with
  | Event.Slug => false
  | Event.Agenda | Event.Tags => bad_array (Event.get doc f)
  | _ => Event.blank (Event.get doc f)
  end.

(** The fields in the order the hook checks them. *)
Definition checked_fields : list Event.field :=
  Event.requiredStringFields ++ Event.requiredArrayFields.

(** The three messages of the hook about a field. *)
Definition names_field (msg : jsstring) (f : Event.field) : Prop :=
  msg = "Field " ++ Event.quoted (Event.field_name f) ++ " is required"
  \/ msg = "Field " ++ Event.quoted (Event.field_name f)
              ++ " must be a non-empty array"
  \/ msg = "Field " ++ Event.quoted (Event.field_name f)
              ++ " must contain only non-empty strings".

(** An event whose title holds no letter and no digit. *)
Definition punctuation_event : Event.EventDocument :=
  {| Event.title := Str "!!!"; Event.slug := Undefined;
     Event.description := Str "Monthly meetup";
     Event.overview := Str "Talks and pizza";
     Event.image := Str "/images/meetup.png";
     Event.venue := Str "Town hall"; Event.location := Str "Chennai";
     Event.date := Str "2024-03-05T10:00:00Z"; Event.time := Str "9:05";
     Event.mode := Str "offline"; Event.audience := Str "developers";
     Event.agenda := Arr [Str "Doors open"; Str "Talks"];
     Event.organizer := Str "dev-events"; Event.tags := Arr [Str "meetup"] |}.

(** The same event as the hook leaves it. *)
Definition saved_punctuation_event : Event.EventDocument :=
  {| Event.title := Str "!!!"; Event.slug := Str [];
     Event.description := Str "Monthly meetup";
     Event.overview := Str "Talks and pizza";
     Event.image := Str "/images/meetup.png";
     Event.venue := Str "Town hall"; Event.location := Str "Chennai";
     Event.date := Str "2024-03-05"; Event.time := Str "09:05";
     Event.mode := Str "offline"; Event.audience := Str "developers";
     Event.agenda := Arr [Str "Doors open"; Str "Talks"];
     Event.organizer := Str "dev-events"; Event.tags := Arr [Str "meetup"] |}.

(** The same event with a venue of white space only. *)
Definition venueless_event : Event.EventDocument :=
  {| Event.title := Str "!!!"; Event.slug := Undefined;
     Event.description := Str "Monthly meetup";
     Event.overview := Str "Talks and pizza";
     Event.image := Str "/images/meetup.png";
     Event.venue := Str "   "; Event.location := Str "Chennai";
     Event.date := Str "2024-03-05T10:00:00Z"; Event.time := Str "9:05";
     Event.mode := Str "offline"; Event.audience := Str "developers";
     Event.agenda := Arr [Str "Doors open"; Str "Talks"];
     Event.organizer := Str "dev-events"; Event.tags := Arr [] |}.

(** A calendar date [YYYY-MM-DD]. *)
Definition is_YYYY_MM_DD (s : jsstring) : bool :=
  match s with
  | [y1; y2; y3; y4; dash1; m1; m2; dash2; d1; d2] =>
      forallb is_digit [y1; y2; y3; y4; m1; m2; d1; d2]
      && is_dash dash1 && is_dash dash2
  | _ => false
  end.

(** A zero-padded 24h time [HH:MM]. *)
Definition is_HHMM (r : jsstring) : bool :=
  match r with
  | [a; b; ":"; c; d]%char =>
      forallb is_digit [a; b; c; d]
      && (Number [a; b] <=? 23) && (Number [c; d] <=? 59)
  | _ => false
  end.

(** What holds of a process along any run: an attempt is made by a call,
    and a connection or an error that the cache or a call holds is the
    outcome of an attempt. *)
Definition from_attempts (pr : Connection.process) : Prop :=
  let w := Connection.state pr in
  (length (Connection.attempts w) <= length (Connection.calls pr))%nat
  /\ (forall c, Connection.conn (Connection.cached w) = Some c ->
      exists p, Connection.attempts w !! p = Some (Connection.Fulfilled c))
  /\ (forall i c, Connection.calls pr !! i = Some (Connection.Returned c) ->
      exists p, Connection.attempts w !! p = Some (Connection.Fulfilled c))
  /\ (forall i e, Connection.calls pr !! i = Some (Connection.Thrown e) ->
      exists p, Connection.attempts w !! p = Some (Connection.Rejected e)).

(** What holds of a process once a connection is cached, [n] attempts
    and [k] calls having been made: the cache holds a connection, no
    attempt is added, and the later calls have returned. *)
Definition connected (n k : nat) (pr : Connection.process) : Prop :=
  is_Some (Connection.conn (Connection.cached (Connection.state pr)))
  /\ length (Connection.attempts (Connection.state pr)) = n
  /\ (forall i o, (k <= i)%nat -> Connection.calls pr !! i = Some o ->
      exists c, o = Connection.Returned c).

(** A process whose first attempt was refused and whose second attempt
    gave the connection 7. *)
Definition retried_process : Connection.process :=
  Connection.run Connection.start
    [Connection.Call;
     Connection.Settle 0 (Connection.Rejected "ECONNREFUSED");
     Connection.Continue 0; Connection.Call;
     Connection.Settle 1 (Connection.Fulfilled 7%N);
     Connection.Continue 1].

(** The year as [toISOString] prints it, and the date part of its
    result. *)
Definition year_text (y : Z) : jsstring :=
  if (0 <=? y) && (y <=? 9999) then Date.pad 4 y
  else (if y <? 0 then "-"%char else "+"%char) :: Date.pad 6 (Z.abs y).

Definition date_text (y m d : Z) : jsstring :=
  year_text y ++ "-" ++ Date.pad 2 m ++ "-" ++ Date.pad 2 d.

(** A calendar date with an expanded year: a sign, six digits for the
    year, then [-MM-DD]. *)
Definition is_expanded_date (s : jsstring) : bool :=
  match s with
  | [sign; y1; y2; y3; y4; y5; y6; dash1; m1; m2; dash2; d1; d2] =>
      (is_char "+" sign || is_char "-" sign)
      && forallb is_digit [y1; y2; y3; y4; y5; y6; m1; m2; d1; d2]
      && is_dash dash1 && is_dash dash2
  | _ => false
  end.

(** The runtime's parser gives time values only. *)
Definition gives_time_values (host_parse : jsstring -> option Z) : Prop :=
  forall s t, host_parse s = Some t -> Z.abs t <= 8640000000000000.

(** * Properties *)

(** ** Characters *)

Section Characters.

Lemma code_inj c1 c2 : code c1 = code c2 -> c1 = c2.
Proof.
  unfold code. intros H.
  rewrite <- (ascii_N_embedding c1), <- (ascii_N_embedding c2).
  now rewrite H.
Qed.

Lemma is_char_eq x c : is_char x c = true <-> c = x.
Proof.
  unfold is_char. rewrite N.eqb_eq. split; [apply code_inj | now intros ->].
Qed.

Lemma is_digit_cases c :
  is_digit c = true ->
  In c ["0"; "1"; "2"; "3"; "4"; "5"; "6"; "7"; "8"; "9"]%char.
Proof.
  destruct c as [[] [] [] [] [] [] [] []]; vm_compute; intros H;
    first [discriminate H | tauto].
Qed.

Lemma digit_not_space c : is_digit c = true -> is_space c = false.
Proof.
  intros H. apply is_digit_cases in H. simpl in H.
  repeat destruct H as [<- | H]; try reflexivity. destruct H.
Qed.

End Characters.

(** ** The matcher computes the relation *)

Section Matcher.

Lemma exec_rep_sound cls k out : forall s lo hi caps,
  exec_rep cls lo hi s caps k = Some out ->
  exists s1 s2, s = s1 ++ s2 /\ in_bounds lo hi (length s1)
    /\ forallb cls s1 = true /\ k s2 caps = Some out.
Proof.
  assert (Hstop : forall s lo hi caps,
    match lo with O => k s caps | S _ => None end = Some out ->
    exists s1 s2, s = s1 ++ s2 /\ in_bounds lo hi (length s1)
      /\ forallb cls s1 = true /\ k s2 caps = Some out).
  { intros s lo hi caps H. destruct lo; [|discriminate].
    exists [], s. repeat split; simpl; auto with lia.
    destruct hi; lia. }
  induction s as [|c s IH]; intros lo hi caps H.
  - apply Hstop. destruct hi as [[|h]|]; exact H.
  - simpl in H.
    assert (Hgo : (if cls c
                   then match exec_rep cls (Nat.pred lo) (Nat.pred <$> hi) s caps k with
                        | Some out => Some out
                        | None => match lo with O => k (c :: s) caps | S _ => None end
                        end
                   else match lo with O => k (c :: s) caps | S _ => None end) = Some out
                  -> hi <> Some O ->
                  exists s1 s2, c :: s = s1 ++ s2 /\ in_bounds lo hi (length s1)
                    /\ forallb cls s1 = true /\ k s2 caps = Some out).
    { intros Hc Hhi. destruct (cls c) eqn:Ec; [|now apply Hstop].
      destruct (exec_rep cls (Nat.pred lo) (Nat.pred <$> hi) s caps k) eqn:Er;
        [|now apply Hstop].
      injection Hc as ->. apply IH in Er as (s1 & s2 & -> & [Hlo Hhi'] & Hall & Hk).
      exists (c :: s1), s2. repeat split; simpl; auto.
      - lia.
      - destruct hi as [[|h]|]; simpl in *; try lia. congruence.
      - now rewrite Ec. }
    destruct hi as [[|h]|].
    + now apply Hstop.
    + apply Hgo; [exact H | discriminate].
    + apply Hgo; [exact H | discriminate].
Qed.

Lemma exec_rep_complete cls k s2 caps : forall s1 lo hi,
  in_bounds lo hi (length s1) ->
  forallb cls s1 = true ->
  is_Some (k s2 caps) ->
  is_Some (exec_rep cls lo hi (s1 ++ s2) caps k).
Proof.
  induction s1 as [|c s1 IH]; intros lo hi [Hlo Hhi] Hall Hk.
  - simpl in Hlo. assert (lo = O) as -> by lia. simpl.
    destruct s2 as [|c s2].
    + destruct hi as [[|h]|]; exact Hk.
    + simpl. destruct hi as [[|h]|]; try exact Hk;
        (destruct (cls c); [|exact Hk]);
        match goal with |- is_Some (match ?e with _ => _ end) =>
          destruct e; [eauto | exact Hk] end.
  - simpl in Hall. apply andb_true_iff in Hall as [Hc Hall].
    assert (Hrec : is_Some (exec_rep cls (Nat.pred lo) (Nat.pred <$> hi)
                              (s1 ++ s2) caps k)).
    { apply IH; auto. split; [simpl in Hlo; lia|].
      destruct hi as [h|]; simpl in *; [lia | exact I]. }
    destruct Hrec as [out Hout].
    simpl. destruct hi as [[|h]|]; simpl in *; try lia;
      rewrite Hc, Hout; eauto.
Qed.

Lemma exec_sound r : forall s caps k out,
  exec r s caps k = Some out ->
  exists s1 s2 caps1, s = s1 ++ s2 /\ matches r s1 caps caps1
    /\ k s2 caps1 = Some out.
Proof.
  induction r as [cls lo hi | r1 IH1 r2 IH2 | i r IH | r IH];
    intros s caps k out H; simpl in H.
  - apply exec_rep_sound in H as (s1 & s2 & -> & Hb & Hall & Hk).
    exists s1, s2, caps. repeat split; auto. now constructor.
  - apply IH1 in H as (s1 & s' & caps1 & -> & Hm1 & H).
    apply IH2 in H as (s2 & s3 & caps2 & -> & Hm2 & Hk).
    exists (s1 ++ s2), s3, caps2. rewrite <- app_assoc.
    repeat split; auto. econstructor; eauto.
  - apply IH in H as (s1 & s2 & caps1 & -> & Hm & Hk).
    exists s1, s2, (<[i := s1]> caps1). repeat split; [now constructor|].
    rewrite length_app in Hk.
    replace (length s1 + length s2 - length s2)%nat with (length s1) in Hk by lia.
    now rewrite take_app_length in Hk.
  - destruct (exec r s caps k) eqn:E.
    + injection H as ->. apply IH in E as (s1 & s2 & caps1 & -> & Hm & Hk).
      exists s1, s2, caps1. repeat split; auto. now constructor.
    + exists [], s, caps. repeat split; auto. apply matches_opt_none.
Qed.

Lemma exec_complete r s1 caps caps1 :
  matches r s1 caps caps1 ->
  forall s2 k, is_Some (k s2 caps1) -> is_Some (exec r (s1 ++ s2) caps k).
Proof.
  induction 1 as [cls lo hi s caps Hb Hall
                 | r1 r2 s1 s2 caps caps1 caps2 _ IH1 _ IH2
                 | i r s caps caps1 _ IH
                 | r s caps caps1 _ IH
                 | r caps]; intros s' k Hk; simpl.
  - now apply exec_rep_complete.
  - rewrite <- app_assoc. apply IH1. now apply IH2.
  - apply IH. rewrite length_app.
    replace (length s + length s' - length s')%nat with (length s) by lia.
    now rewrite take_app_length.
  - destruct (IH s' k Hk) as [out ->]. eauto.
  - destruct (exec r s' caps k); [eauto | exact Hk].
Qed.

Lemma String_match_sound r s out :
  String_match r s = Some out -> matches r s ∅ out.
Proof.
  intros H. apply exec_sound in H as (s1 & s2 & caps1 & -> & Hm & Hk).
  destruct s2; [|discriminate]. injection Hk as ->.
  now rewrite app_nil_r.
Qed.

Lemma String_match_complete r s out :
  matches r s ∅ out -> is_Some (String_match r s).
Proof.
  intros H. unfold String_match. rewrite <- (app_nil_r s).
  apply (exec_complete _ _ _ _ H). simpl. eauto.
Qed.

End Matcher.

(** ** [normalizeTime] *)

Section NormalizeTime.

Local Ltac lists :=
  repeat match goal with
  | H : length ?l = _ |- _ =>
      is_var l; destruct l as [|? [|? [|? ?]]]; simpl in H; try lia; clear H
  end.

Lemma matches_Chr c s caps caps1 :
  matches (Chr c) s caps caps1 -> s = [c] /\ caps1 = caps.
Proof.
  unfold Chr. inversion 1 as [? ? ? ? ? [Hlo Hhi] Hall| | | |]; subst.
  destruct s as [|x [|y s]]; simpl in *; try lia.
  rewrite andb_true_r in Hall. apply is_char_eq in Hall. now subst.
Qed.

Lemma matches_Times n cls s caps caps1 :
  matches (Times n cls) s caps caps1 ->
  length s = n /\ forallb cls s = true /\ caps1 = caps.
Proof.
  unfold Times. inversion 1 as [? ? ? ? ? [Hlo Hhi] Hall| | | |]; subst.
  repeat split; auto; lia.
Qed.

Lemma timeRegex_sound s out :
  matches timeRegex s ∅ out ->
  exists h m, time_shape s h m /\ out = <[2%nat := m]> (<[1%nat := h]> ∅).
Proof.
  unfold timeRegex. intros H.
  inversion H as [|? ? h s1 ? c1 ? Hh H1| | |]; subst; clear H.
  inversion Hh as [| |? ? ? ? ? Hh'| |]; subst; clear Hh.
  inversion Hh' as [? ? ? ? ? [Hlo Hhi] Hdh| | | |]; subst; clear Hh'.
  inversion H1 as [|? ? colon s2 ? c2 ? Hc H2| | |]; subst; clear H1.
  apply matches_Chr in Hc as [-> ->].
  inversion H2 as [|? ? m s3 ? c3 ? Hm H3| | |]; subst; clear H2.
  inversion Hm as [| |? ? ? ? ? Hm'| |]; subst; clear Hm.
  apply matches_Times in Hm' as (Hlm & Hdm & ->).
  exists h, m. split.
  - repeat split; auto; try lia.
    inversion H3 as [| | |? ? ? ? Hs|]; subst; clear H3.
    + inversion Hs as [|? ? colon ss ? c4 ? Hc Hss| | |]; subst; clear Hs.
      apply matches_Chr in Hc as [-> _].
      apply matches_Times in Hss as (Hlss & Hdss & _).
      right. exists ss. repeat split; auto.
    + left. now rewrite app_nil_r.
  - inversion H3 as [| | |? ? ? ? Hs|]; subst; clear H3; [|reflexivity].
    inversion Hs as [|? ? colon ss ? c4 ? Hc Hss| | |]; subst; clear Hs.
    apply matches_Chr in Hc as [_ ->].
    now apply matches_Times in Hss as (_ & _ & ->).
Qed.

Lemma matches_Chr_intro c caps : matches (Chr c) [c] caps caps.
Proof.
  constructor; [split; simpl; lia|].
  simpl. rewrite andb_true_r. now apply is_char_eq.
Qed.

Lemma timeRegex_complete s h m :
  time_shape s h m ->
  matches timeRegex s ∅ (<[2%nat := m]> (<[1%nat := h]> ∅)).
Proof.
  intros (Hlh & Hlm & Hdh & Hdm & Hs). unfold timeRegex.
  assert (Hh : matches (Group 1 (Rep is_digit 1 (Some 2%nat))) h ∅
                 (<[1%nat := h]> ∅)).
  { constructor. constructor; [split; lia | exact Hdh]. }
  assert (Hm : forall caps,
            matches (Group 2 (Times 2 is_digit)) m caps (<[2%nat := m]> caps)).
  { intros caps. constructor. constructor; [split; lia | exact Hdm]. }
  destruct Hs as [-> | (ss & Hlss & Hdss & ->)].
  - apply (matches_seq _ _ h _ _ _ _ Hh).
    apply (matches_seq _ _ [":"%char] m _ _ _ (matches_Chr_intro _ _)).
    rewrite <- (app_nil_r m) at 1.
    apply (matches_seq _ _ m [] _ _ _ (Hm _)). apply matches_opt_none.
  - apply (matches_seq _ _ h _ _ _ _ Hh).
    apply (matches_seq _ _ [":"%char] (m ++ ":" ++ ss) _ _ _ (matches_Chr_intro _ _)).
    apply (matches_seq _ _ m _ _ _ _ (Hm _)). apply matches_opt_some.
    apply (matches_seq _ _ [":"%char] ss _ _ _ (matches_Chr_intro _ _)).
    constructor; [split; lia | exact Hdss].
Qed.

(** The colon is not a digit, so a string has one reading at most. *)
Lemma time_shape_unique s h m h' m' :
  time_shape s h m -> time_shape s h' m' -> h = h' /\ m = m'.
Proof.
  intros (Hlh & Hlm & Hdh & Hdm & Hs) (Hlh' & Hlm' & Hdh' & Hdm' & Hs').
  unfold all_digits in *.
  assert (Hcolon : forall c, is_digit c = true -> c <> ":"%char).
  { intros c Hc ->. discriminate Hc. }
  destruct Hlh as [Hlh | Hlh], Hlh' as [Hlh' | Hlh'];
    destruct Hs as [-> | (ss & Hlss & _ & ->)];
    destruct Hs' as [Hs' | (ss' & Hlss' & _ & Hs')];
    lists; simpl in *; simplify_eq; auto;
    repeat match goal with
    | H : _ && _ = true |- _ => apply andb_true_iff in H as [? ?]
    end;
    exfalso; eapply Hcolon; eauto.
Qed.

Lemma String_match_time s h m :
  time_shape s h m ->
  String_match timeRegex s = Some (<[2%nat := m]> (<[1%nat := h]> ∅)).
Proof.
  intros Hs.
  destruct (String_match_complete _ _ _ (timeRegex_complete _ _ _ Hs)) as [out Hout].
  rewrite Hout. f_equal.
  apply String_match_sound, timeRegex_sound in Hout as (h' & m' & Hs' & ->).
  now destruct (time_shape_unique _ _ _ _ _ Hs Hs') as [-> ->].
Qed.

Lemma String_match_time_none s :
  (forall h m, ~ time_shape s h m) -> String_match timeRegex s = None.
Proof.
  intros Hno. destruct (String_match timeRegex s) as [out|] eqn:E; [|reflexivity].
  apply String_match_sound, timeRegex_sound in E as (h & m & Hs & _).
  now destruct (Hno h m).
Qed.

Lemma all_digits_cons c s :
  all_digits (c :: s) <-> is_digit c = true /\ all_digits s.
Proof. unfold all_digits. simpl. apply andb_true_iff. Qed.

Local Ltac digits :=
  repeat match goal with
  | H : all_digits (_ :: _) |- _ => apply all_digits_cons in H as [? H]
  | H : all_digits [] |- _ => clear H
  end.

Local Ltac enumerate :=
  repeat match goal with
  | H : is_digit ?c = true |- _ =>
      is_var c; apply is_digit_cases in H; simpl in H;
      repeat destruct H as [<- | H]; [..| destruct H]
  end.

(** Printing the number read from one or two digits gives them back,
    with a leading zero for a single one. *)
Lemma pad_two h :
  (length h = 1 \/ length h = 2)%nat -> all_digits h ->
  0 <= Number h /\ padStart 2 "0" (toString (Number h)) = two_digits h.
Proof.
  intros [Hl | Hl] Hd; lists; digits; enumerate;
    (split; [now vm_compute | reflexivity]).
Qed.

Lemma trim_keeps s c d :
  head s = Some c -> head (rev s) = Some d ->
  is_space c = false -> is_space d = false ->
  trim s = s.
Proof.
  intros Hs Hr Hc Hd. unfold trim, trimEnd.
  destruct s as [|c' s]; [discriminate|]. injection Hs as ->.
  cbn [trimStart]. rewrite Hc.
  destruct (rev (c :: s)) as [|d' t] eqn:E; [discriminate|]. injection Hr as ->.
  cbn [trimStart]. rewrite Hd, <- E. apply rev_involutive.
Qed.

Lemma trim_time_shape s h m : time_shape s h m -> trim s = s.
Proof.
  intros (Hlh & Hlm & Hdh & Hdm & Hs).
  destruct Hlh as [Hlh | Hlh];
    destruct Hs as [-> | (ss & Hlss & Hdss & ->)]; lists; digits;
    (eapply trim_keeps; [reflexivity | reflexivity | ..]);
    now apply digit_not_space.
Qed.

(** What [normalizeTime] returns on a string of the accepted shape. *)
Lemma normalizeTime_shape s h m :
  time_shape (trim s) h m ->
  normalizeTime s =
    if (Number h >? 23) || (Number m >? 59)
    then Throw "Invalid event time value"
    else Ok (two_digits h ++ ":" ++ m).
Proof.
  intros Hs. unfold normalizeTime. rewrite (String_match_time _ _ _ Hs).
  unfold group. rewrite lookup_insert_ne, lookup_insert_eq by discriminate.
  rewrite lookup_insert_eq. simpl default.
  destruct Hs as (Hlh & Hlm & Hdh & Hdm & _).
  destruct (pad_two h Hlh Hdh) as [Hh ->].
  destruct (pad_two m (or_intror Hlm) Hdm) as [Hm ->].
  replace (Number h <? 0) with false by (symmetry; apply Z.ltb_ge; lia).
  replace (Number m <? 0) with false by (symmetry; apply Z.ltb_ge; lia).
  rewrite orb_false_l, orb_false_r.
  destruct ((Number h >? 23) || (Number m >? 59)); [reflexivity|].
  now lists.
Qed.

Lemma normalizeTime_no_shape s :
  (forall h m, ~ time_shape (trim s) h m) ->
  normalizeTime s = Throw "Invalid event time format (expected HH:mm)".
Proof.
  intros Hno. unfold normalizeTime.
  now rewrite (String_match_time_none _ Hno).
Qed.

(** A successful result comes from a string of the accepted shape. *)
Lemma normalizeTime_Ok s r :
  normalizeTime s = Ok r ->
  exists h m, time_shape (trim s) h m /\ Number h <= 23 /\ Number m <= 59
    /\ r = two_digits h ++ ":" ++ m.
Proof.
  intros H.
  destruct (String_match timeRegex (trim s)) as [out|] eqn:E.
  - apply String_match_sound, timeRegex_sound in E as (h & m & Hs & _).
    rewrite (normalizeTime_shape _ _ _ Hs) in H.
    destruct (Z.gtb_spec (Number h) 23), (Z.gtb_spec (Number m) 59);
      simpl in H; try discriminate H.
    injection H as <-. exists h, m.
    split; [exact Hs|]. split; [lia|]. split; [lia | reflexivity].
  - unfold normalizeTime in H. rewrite E in H. discriminate H.
Qed.

Lemma is_HHMM_two_digits h m :
  (length h = 1 \/ length h = 2)%nat -> length m = 2%nat ->
  all_digits h -> all_digits m -> Number h <= 23 -> Number m <= 59 ->
  is_HHMM (two_digits h ++ ":" ++ m) = true.
Proof.
  intros [Hlh | Hlh] Hlm Hdh Hdm Hh Hm; lists; digits;
    cbn [two_digits app list_ascii_of_string is_HHMM forallb];
    repeat match goal with H : is_digit _ = true |- _ => rewrite H end;
    cbn [andb]; apply andb_true_iff; split; apply Z.leb_le; auto.
Qed.

End NormalizeTime.

(** C1. A minute of a single digit is rejected: for "9:5", and for any
    hour [h] of one or two digits and any digit [d], the match of
    [timeRegex] on [h:d] fails and [normalizeTime] throws the format
    error.  With the minute written [0d] the time is accepted when the
    hour is at most 23, and a single-digit hour is zero-padded: "9:05"
    gives "09:05". *)
Theorem normalizeTime_single_digit_minute (h : jsstring) (d : ascii) :
  (length h = 1 \/ length h = 2)%nat -> all_digits h -> is_digit d = true ->
  normalizeTime (h ++ ":" ++ [d])
  = Throw "Invalid event time format (expected HH:mm)"
  /\ normalizeTime (h ++ ":" ++ ["0"%char; d])
     = if Number h >? 23
       then Throw "Invalid event time value"
       else Ok (two_digits h ++ ":" ++ ["0"%char; d]).
Proof.
  intros Hlh Hdh Hd. split.
  - apply normalizeTime_no_shape.
    assert (Htrim : trim (h ++ ":" ++ [d]) = h ++ ":" ++ [d]).
    { destruct Hlh as [Hlh | Hlh];
        destruct h as [|a [|b [|? ?]]]; try discriminate Hlh;
        apply all_digits_cons in Hdh as [Ha Hdh];
        (eapply trim_keeps; [reflexivity | reflexivity | ..]);
        now apply digit_not_space. }
    rewrite Htrim. intros h' m' (Hlh' & Hlm' & Hdh' & Hdm' & Hs).
    assert (Hcolon : forall c, is_digit c = true -> c <> ":"%char)
      by (intros c Hc ->; discriminate Hc).
    destruct Hlh as [Hlh | Hlh], Hlh' as [Hlh' | Hlh'];
      destruct Hs as [Hs | (ss & Hlss & _ & Hs)];
      destruct h as [|a [|b [|? ?]]]; try discriminate Hlh;
      destruct h' as [|a' [|b' [|? ?]]]; try discriminate Hlh';
      destruct m' as [|c' [|d' [|? ?]]]; try discriminate Hlm';
      try discriminate Hs.
    simpl in Hs. injection Hs as -> -> <- <-.
    apply all_digits_cons in Hdh as [_ Hdh].
    apply all_digits_cons in Hdh as [Hb _]. now apply (Hcolon _ Hb).
  - assert (Hm : all_digits ["0"%char; d])
      by (apply all_digits_cons; split; [reflexivity|];
          apply all_digits_cons; split; [exact Hd | reflexivity]).
    assert (Hs : time_shape (h ++ ":" ++ ["0"%char; d]) h ["0"%char; d])
      by (repeat split; auto).
    assert (Ht : time_shape (trim (h ++ ":" ++ ["0"%char; d])) h ["0"%char; d])
      by now rewrite (trim_time_shape _ _ _ Hs).
    rewrite (normalizeTime_shape _ _ _ Ht).
    replace (Number ["0"%char; d] >? 59) with false; [now rewrite orb_false_r|].
    apply is_digit_cases in Hd. simpl in Hd.
    repeat destruct Hd as [<- | Hd]; try reflexivity. destruct Hd.
Qed.

Lemma normalizeTime_single_digit_minute_witness :
  normalizeTime "9:5" = Throw "Invalid event time format (expected HH:mm)"
  /\ normalizeTime "9:05" = Ok "09:05".
Proof.
  apply (normalizeTime_single_digit_minute "9" "5");
    first [reflexivity | left; reflexivity].
Defined.

(** C1 as stated fails: "9:5" does not give "09:05". *)
Lemma normalizeTime_9_5_is_not_09_05 : normalizeTime "9:5" <> Ok "09:05".
Proof. vm_compute. discriminate. Qed.

(** C2. With [trim s] the input without its surrounding white space:
    when [trim s] reads neither [h:m] nor [h:m:ss] (one or two hour
    digits, two minute digits, two second digits) [normalizeTime s]
    throws the format error; when it does but the hour is above 23 or
    the minute above 59 it throws the value error, as for "24:00"; and a
    result it returns is the zero-padded [HH:MM] of that hour and
    minute. *)
Theorem normalizeTime_rejects (s : jsstring) :
  ((forall h m, ~ time_shape (trim s) h m) ->
     normalizeTime s = Throw "Invalid event time format (expected HH:mm)")
  /\ (forall h m, time_shape (trim s) h m ->
        23 < Number h \/ 59 < Number m ->
        normalizeTime s = Throw "Invalid event time value")
  /\ normalizeTime "24:00" = Throw "Invalid event time value"
  /\ (forall r, normalizeTime s = Ok r ->
        is_HHMM r = true
        /\ exists h m, time_shape (trim s) h m
             /\ Number h <= 23 /\ Number m <= 59
             /\ r = two_digits h ++ ":" ++ m).
Proof.
  split; [apply normalizeTime_no_shape|].
  split; [|split; [vm_compute; reflexivity|]].
  - intros h m Hs Hrange. rewrite (normalizeTime_shape _ _ _ Hs).
    destruct (Z.gtb_spec (Number h) 23), (Z.gtb_spec (Number m) 59);
      try reflexivity. lia.
  - intros r Hr.
    destruct (normalizeTime_Ok _ _ Hr) as (h & m & Hs & Hh & Hm & ->).
    split; [|exists h, m; tauto].
    destruct Hs as (Hlh & Hlm & Hdh & Hdm & _).
    now apply is_HHMM_two_digits.
Qed.

Lemma normalizeTime_rejects_witness :
  normalizeTime "25:61" = Throw "Invalid event time value"
  /\ normalizeTime "12h30" = Throw "Invalid event time format (expected HH:mm)".
Proof.
  split.
  - apply (proj1 (proj2 (normalizeTime_rejects "25:61")) "25" "61").
    + repeat split; auto.
    + left. vm_compute. reflexivity.
  - apply (proj1 (normalizeTime_rejects "12h30")).
    intros h m (Hlh & Hlm & Hdh & Hdm & Hs).
    destruct Hlh as [Hlh | Hlh];
      destruct Hs as [Hs | (ss & Hlss & Hdss & Hs)];
      destruct h as [|? [|? [|? ?]]]; try discriminate Hlh;
      destruct m as [|? [|? [|? ?]]]; try discriminate Hlm;
      discriminate Hs.
Defined.

(** C2 as stated fails: "9:05:30" is none of the shapes [H:MM],
    [HH:MM], [HH:MM:SS], and [normalizeTime] accepts it. *)
Lemma normalizeTime_accepts_H_MM_SS :
  spec_time_shape "9:05:30" = false
  /\ normalizeTime "9:05:30" = Ok "09:05".
Proof. split; vm_compute; reflexivity. Qed.

(** C10. For every input [HH:MM:SS] with the hour from 0 to 23 and the
    minute from 0 to 59, whatever the two second digits are, the result
    is [HH:MM]: the seconds are not range-checked and are dropped. *)
Theorem normalizeTime_seconds_dropped (h m ss : jsstring) :
  length h = 2%nat -> length m = 2%nat -> length ss = 2%nat ->
  all_digits h -> all_digits m -> all_digits ss ->
  Number h <= 23 -> Number m <= 59 ->
  normalizeTime (h ++ ":" ++ m ++ ":" ++ ss) = Ok (h ++ ":" ++ m).
Proof.
  intros Hlh Hlm Hlss Hdh Hdm Hdss Hh Hm.
  assert (Hs : time_shape (h ++ ":" ++ m ++ ":" ++ ss) h m).
  { repeat split; auto. right. now exists ss. }
  assert (Ht : time_shape (trim (h ++ ":" ++ m ++ ":" ++ ss)) h m).
  { now rewrite (trim_time_shape _ _ _ Hs). }
  rewrite (normalizeTime_shape _ _ _ Ht).
  destruct (Z.gtb_spec (Number h) 23), (Z.gtb_spec (Number m) 59); try lia.
  simpl. now destruct h as [|? [|? [|? ?]]].
Qed.

Lemma normalizeTime_seconds_dropped_witness :
  normalizeTime "10:30:99" = Ok "10:30".
Proof.
  apply (normalizeTime_seconds_dropped "10" "30" "99");
    first [reflexivity | vm_compute; discriminate].
Defined.

(** ** [generateSlug] *)

Section GenerateSlug.

Variables (cls : ascii -> bool) (by_ : jsstring).

Lemma replace_runs_from_forallb (P Q : ascii -> bool) :
  (forall c, Q c = true -> cls c = false -> P c = true) ->
  forallb P by_ = true ->
  forall s b, forallb Q s = true ->
    forallb P (replace_runs_from cls by_ b s) = true.
Proof.
  intros HPQ Hby. induction s as [|c s IH]; intros b Hs; [reflexivity|].
  simpl in Hs. apply andb_true_iff in Hs as [Hc Hs]. simpl.
  destruct (cls c) eqn:Ec.
  - destruct b; [now apply IH|].
    rewrite forallb_app, Hby. now apply IH.
  - simpl. rewrite (HPQ c Hc Ec). now apply IH.
Qed.

(** Characters outside the class are copied. *)
Lemma replace_runs_from_word w : forall b,
  forallb (fun c => negb (cls c)) w = true ->
  replace_runs_from cls by_ b w = w.
Proof.
  induction w as [|c w IH]; intros b Hw; [reflexivity|].
  simpl in Hw. apply andb_true_iff in Hw as [Hc Hw].
  apply negb_true_iff in Hc. simpl. rewrite Hc. f_equal. now apply IH.
Qed.

Lemma replace_runs_from_app_word rest : forall w b,
  (w = [] -> b = false) ->
  forallb (fun c => negb (cls c)) w = true ->
  replace_runs_from cls by_ b (w ++ rest)
  = w ++ replace_runs_from cls by_ false rest.
Proof.
  induction w as [|c w IH]; intros b Hb Hw.
  - now rewrite Hb.
  - simpl in Hw. apply andb_true_iff in Hw as [Hc Hw].
    apply negb_true_iff in Hc. simpl. rewrite Hc. f_equal. now apply IH.
Qed.

(** A run of characters of the class is replaced once. *)
Lemma replace_runs_from_run_true rest : forall r,
  forallb cls r = true ->
  replace_runs_from cls by_ true (r ++ rest)
  = replace_runs_from cls by_ true rest.
Proof.
  induction r as [|c r IH]; intros Hr; [reflexivity|].
  simpl in Hr. apply andb_true_iff in Hr as [Hc Hr].
  simpl. rewrite Hc. now apply IH.
Qed.

Lemma replace_runs_from_run_false rest r :
  r <> [] -> forallb cls r = true ->
  replace_runs_from cls by_ false (r ++ rest)
  = by_ ++ replace_runs_from cls by_ true rest.
Proof.
  destruct r as [|c r]; [congruence|]. intros _ Hr.
  simpl in Hr. apply andb_true_iff in Hr as [Hc Hr].
  simpl. rewrite Hc. f_equal. now apply replace_runs_from_run_true.
Qed.

End GenerateSlug.

Section Slug.

(** The characters [generateSlug] keeps after lowering the title. *)
Let kept (c : ascii) : bool :=
  is_lower c || is_digit c || is_space c || is_dash c.

Lemma generateSlug_eq title :
  generateSlug title =
  replace_runs is_dash ["-"%char]
    (replace_runs is_space ["-"%char]
       (remove_all (fun c => negb (kept c)) (trim (toLowerCase title)))).
Proof. reflexivity. Qed.

Lemma lower_char_idem c : lower_char (lower_char c) = lower_char c.
Proof. destruct c as [[] [] [] [] [] [] [] []]; reflexivity. Qed.

Lemma lower_char_kept c : kept c = true -> lower_char c = c.
Proof.
  destruct c as [[] [] [] [] [] [] [] []]; vm_compute;
    first [reflexivity | discriminate].
Qed.

Lemma toLowerCase_kept s : forallb kept s = true -> toLowerCase s = s.
Proof.
  induction s as [|c s IH]; [reflexivity|]. simpl.
  intros H. apply andb_true_iff in H as [Hc Hs].
  unfold toLowerCase in *. simpl. now rewrite lower_char_kept, IH.
Qed.

Lemma remove_all_kept s :
  forallb kept s = true -> remove_all (fun c => negb (kept c)) s = s.
Proof.
  induction s as [|c s IH]; [reflexivity|]. simpl.
  intros H. apply andb_true_iff in H as [Hc Hs].
  unfold remove_all in *. simpl. rewrite Hc. simpl. now rewrite IH.
Qed.

Lemma forallb_remove_all s :
  forallb kept (remove_all (fun c => negb (kept c)) s) = true.
Proof.
  induction s as [|c s IH]; [reflexivity|]. unfold remove_all in *. simpl.
  destruct (kept c) eqn:Ec; simpl; [now rewrite Ec|exact IH].
Qed.

Lemma forallb_impl (P Q : ascii -> bool) s :
  (forall c, P c = true -> Q c = true) ->
  forallb P s = true -> forallb Q s = true.
Proof.
  intros HPQ. induction s as [|c s IH]; [reflexivity|]. simpl.
  intros H. apply andb_true_iff in H as [Hc Hs].
  now rewrite (HPQ c Hc), IH.
Qed.

Lemma generateSlug_chars title : forallb slug_char (generateSlug title) = true.
Proof.
  unfold generateSlug.
  apply replace_runs_from_forallb with (Q := slug_char); auto.
  apply replace_runs_from_forallb with (Q := kept);
    [| reflexivity | apply forallb_remove_all].
  intros c Hc Hs. unfold kept in Hc. unfold slug_char.
  rewrite Hs, orb_false_r in Hc. exact Hc.
Qed.

Lemma no_double_dash_replace s : forall b,
  no_double_dash (replace_runs_from is_dash ["-"%char] b s) = true
  /\ (b = true -> forall c rest,
        replace_runs_from is_dash ["-"%char] b s = c :: rest ->
        is_dash c = false).
Proof.
  induction s as [|c s IH]; intros b; [split; [reflexivity | discriminate]|].
  cbn [replace_runs_from]. destruct (is_dash c) eqn:Ec.
  - destruct b; [apply IH|]. split; [|discriminate].
    destruct (IH true) as [Hn Hhead]. cbn [app].
    destruct (replace_runs_from is_dash ["-"%char] true s) as [|c' r] eqn:E;
      [reflexivity|].
    specialize (Hhead eq_refl c' r eq_refl).
    change (negb (is_dash "-" && is_dash c') && no_double_dash (c' :: r) = true).
    now rewrite Hhead, Hn.
  - split.
    + destruct (IH false) as [Hn _].
      destruct (replace_runs_from is_dash ["-"%char] false s) as [|c' r] eqn:E;
        [reflexivity|].
      change (negb (is_dash c && is_dash c') && no_double_dash (c' :: r) = true).
      now rewrite Ec, Hn.
    + intros _ c' rest H. injection H as <- _. exact Ec.
Qed.

Lemma generateSlug_no_double_dash title :
  no_double_dash (generateSlug title) = true.
Proof. unfold generateSlug. apply no_double_dash_replace. Qed.

Lemma generateSlug_toLowerCase title :
  generateSlug (toLowerCase title) = generateSlug title.
Proof.
  unfold generateSlug. do 4 f_equal. unfold toLowerCase.
  rewrite map_map. apply map_ext. intros c. apply lower_char_idem.
Qed.

(** White space and dashes between two words: the white space becomes
    dashes, leaving a run of at least one dash. *)
Lemma replace_spaces_separator w2 : forall sep b,
  forallb (fun c => is_space c || is_dash c) sep = true ->
  forallb (fun c => negb (is_space c)) w2 = true ->
  exists dashes, forallb is_dash dashes = true
    /\ (b = false -> sep <> [] -> dashes <> [])
    /\ replace_runs_from is_space ["-"%char] b (sep ++ w2) = dashes ++ w2.
Proof.
  induction sep as [|c sep IH]; intros b Hsep Hw2.
  - exists []. repeat split; [congruence|].
    now apply replace_runs_from_word.
  - simpl in Hsep. apply andb_true_iff in Hsep as [Hc Hsep].
    cbn [app replace_runs_from]. destruct (is_space c) eqn:Ec.
    + destruct (IH true Hsep Hw2) as (dashes & Hd & _ & ->). destruct b.
      * exists dashes. repeat split; [exact Hd | discriminate].
      * exists ("-"%char :: dashes). repeat split; [|discriminate].
        simpl. exact Hd.
    + destruct (IH false Hsep Hw2) as (dashes & Hd & _ & ->).
      exists (c :: dashes). repeat split; [|discriminate].
      simpl. rewrite Hd. simpl in Hc. now rewrite Hc.
Qed.

Lemma word_char_facts c :
  word_char c = true ->
  kept c = true /\ is_space c = false /\ is_dash c = false.
Proof.
  destruct c as [[] [] [] [] [] [] [] []]; vm_compute;
    first [discriminate | tauto].
Qed.

Lemma generateSlug_words w1 sep w2 :
  w1 <> [] -> w2 <> [] -> sep <> [] ->
  forallb word_char w1 = true -> forallb word_char w2 = true ->
  forallb (fun c => is_space c || is_dash c) sep = true ->
  generateSlug (w1 ++ sep ++ w2) = w1 ++ "-" ++ w2.
Proof.
  intros H1 H2 Hsep Hw1 Hw2 Hs.
  assert (Hk1 : forallb kept w1 = true)
    by (revert Hw1; apply forallb_impl; intros c Hc; now apply word_char_facts).
  assert (Hk2 : forallb kept w2 = true)
    by (revert Hw2; apply forallb_impl; intros c Hc; now apply word_char_facts).
  assert (Hks : forallb kept sep = true).
  { revert Hs. apply forallb_impl. intros c Hc. unfold kept.
    apply orb_true_iff in Hc as [-> | ->]; now rewrite ?orb_true_r. }
  assert (Hn1 : forallb (fun c => negb (is_space c)) w1 = true)
    by (revert Hw1; apply forallb_impl; intros c Hc;
        now apply negb_true_iff, word_char_facts).
  assert (Hn2 : forallb (fun c => negb (is_space c)) w2 = true)
    by (revert Hw2; apply forallb_impl; intros c Hc;
        now apply negb_true_iff, word_char_facts).
  assert (Hd1 : forallb (fun c => negb (is_dash c)) w1 = true)
    by (revert Hw1; apply forallb_impl; intros c Hc;
        now apply negb_true_iff, word_char_facts).
  assert (Hd2 : forallb (fun c => negb (is_dash c)) w2 = true)
    by (revert Hw2; apply forallb_impl; intros c Hc;
        now apply negb_true_iff, word_char_facts).
  assert (Hall : forallb kept (w1 ++ sep ++ w2) = true)
    by now rewrite !forallb_app, Hk1, Hks, Hk2.
  rewrite generateSlug_eq, (toLowerCase_kept _ Hall).
  assert (Htrim : trim (w1 ++ sep ++ w2) = w1 ++ sep ++ w2).
  { destruct w1 as [|c w1]; [congruence|].
    destruct (rev w2) as [|d t] eqn:E.
    { apply (f_equal (@rev _)) in E. rewrite rev_involutive in E.
      now destruct H2. }
    assert (Hd : In d w2) by (apply in_rev; rewrite E; now left).
    simpl in Hn1. apply andb_true_iff in Hn1 as [Hc _].
    eapply (trim_keeps _ c d); [reflexivity | | now apply negb_true_iff |].
    - change ((c :: w1) ++ sep ++ w2) with ([c] ++ w1 ++ sep ++ w2).
      now rewrite !rev_app_distr, E.
    - rewrite forallb_forall in Hn2. now apply negb_true_iff, Hn2. }
  rewrite Htrim, (remove_all_kept _ Hall). unfold replace_runs.
  rewrite replace_runs_from_app_word by (auto; intros ->; congruence).
  destruct (replace_spaces_separator w2 sep false Hs Hn2)
    as (dashes & Hdashes & Hne & ->).
  rewrite replace_runs_from_app_word by (auto; intros ->; congruence).
  rewrite replace_runs_from_run_false by auto.
  now rewrite replace_runs_from_word.
Qed.

Lemma is_space_lower_char c : is_space (lower_char c) = is_space c.
Proof. destruct c as [[] [] [] [] [] [] [] []]; reflexivity. Qed.

Lemma trimStart_toLowerCase s :
  trimStart (toLowerCase s) = toLowerCase (trimStart s).
Proof.
  unfold toLowerCase. induction s as [|c s IH]; [reflexivity|].
  simpl. rewrite is_space_lower_char. now destruct (is_space c).
Qed.

Lemma trim_toLowerCase s : trim (toLowerCase s) = toLowerCase (trim s).
Proof.
  unfold trim, trimEnd. rewrite trimStart_toLowerCase.
  unfold toLowerCase at 1. rewrite <- map_rev.
  change (map lower_char ?l) with (toLowerCase l).
  rewrite trimStart_toLowerCase. unfold toLowerCase. now rewrite map_rev.
Qed.

(** [generateSlug] is the steps the specification lists, applied to
    the title without its surrounding white space. *)
Lemma generateSlug_steps title :
  generateSlug title = spec_generateSlug (trim title).
Proof.
  rewrite generateSlug_eq, trim_toLowerCase.
  unfold spec_generateSlug, remove_all. do 2 f_equal.
  apply filter_ext. intros c. apply negb_involutive.
Qed.

(** Surrounding white space is trimmed, not turned into dashes. *)
Example generateSlug_trims :
  generateSlug " dev events " = "dev-events"
  /\ spec_generateSlug " dev events " = "-dev-events-".
Proof. split; reflexivity. Qed.

(** A character is a letter or a digit, white space, a dash, or none of
    them; the first three are kept. *)
Lemma char_class c :
  (word_char c = true /\ is_space c = false /\ is_dash c = false
   /\ kept c = true)
  \/ (word_char c = false /\ is_space c = true /\ is_dash c = false
      /\ kept c = true)
  \/ (word_char c = false /\ is_space c = false /\ is_dash c = true
      /\ kept c = true)
  \/ (word_char c = false /\ is_space c = false /\ is_dash c = false
      /\ kept c = false).
Proof.
  destruct c as [[] [] [] [] [] [] [] []]; vm_compute;
    first [ left; now split_and!
          | right; left; now split_and!
          | right; right; left; now split_and!
          | right; right; right; now split_and! ].
Qed.

(** The three replacements read as one pass.  [in_space] says that the
    first replacement stands in a run of white space, [in_dash] that the
    second stands in a run of dashes, which it does whenever the first
    has just written its dash. *)
Lemma replacements_one_pass s :
  forall in_space in_dash,
  (in_space = true -> in_dash = true) ->
  replace_runs_from is_dash ["-"%char] in_dash
    (replace_runs_from is_space ["-"%char] in_space
       (remove_all (fun c => negb (kept c)) s))
  = slug_from in_dash s.
Proof.
  unfold remove_all.
  induction s as [|c s IH]; intros in_space in_dash Hrun; [reflexivity|].
  cbn [List.filter slug_from].
  destruct (char_class c)
    as [(Hw & Hs & Hd & Hk)|[(Hw & Hs & Hd & Hk)|[(Hw & Hs & Hd & Hk)
       |(Hw & Hs & Hd & Hk)]]];
    rewrite Hw, Hk; cbn [negb]; rewrite ?Hs, ?Hd; cbn [orb].
  - cbn [replace_runs_from]. rewrite Hs. cbn [replace_runs_from].
    rewrite Hd. f_equal. now apply IH.
  - cbn [replace_runs_from]. rewrite Hs. destruct in_space.
    + rewrite (Hrun eq_refl). now apply IH.
    + cbn [app replace_runs_from].
      change (is_dash "-") with true. cbn iota.
      destruct in_dash; [|cbn [app]; f_equal]; now apply IH.
  - cbn [replace_runs_from]. rewrite Hs. cbn [replace_runs_from].
    rewrite Hd. destruct in_dash; [|cbn [app]; f_equal]; now apply IH.
  - now apply IH.
Qed.

(** [generateSlug] read as one pass over the lowercased title without
    its surrounding white space. *)
Lemma generateSlug_one_pass title :
  generateSlug title = slug_from false (toLowerCase (trim title)).
Proof.
  rewrite generateSlug_eq, trim_toLowerCase. unfold replace_runs.
  now apply replacements_one_pass.
Qed.

End Slug.

(** C3. The title "Hello, World!  Foo" yields the slug "hello-world-foo".
    [generateSlug] maps every title by removing its surrounding white
    space and then doing what the specification lists:
    it lowercases the title, strips the characters other than letters,
    digits, white space and dashes, turns every run of white space into
    one dash and collapses repeated dashes.  Read in one pass over the
    lowercased title without its surrounding white space, a letter or a
    digit is kept, a run of white space and dashes gives one dash and
    any other character is dropped.  So a slug holds only lower-case
    letters, digits and single dashes, it does not depend on the case of
    the title, and two words separated by white space or dashes are
    joined by one dash. *)
Theorem generateSlug_spec :
  generateSlug "Hello, World!  Foo" = "hello-world-foo"
  /\ (forall title, generateSlug title = spec_generateSlug (trim title))
  /\ (forall title,
        generateSlug title = slug_from false (toLowerCase (trim title)))
  /\ (forall title,
        forallb slug_char (generateSlug title) = true
        /\ no_double_dash (generateSlug title) = true
        /\ generateSlug (toLowerCase title) = generateSlug title)
  /\ (forall w1 sep w2,
        w1 <> [] -> w2 <> [] -> sep <> [] ->
        forallb word_char w1 = true -> forallb word_char w2 = true ->
        forallb (fun c => is_space c || is_dash c) sep = true ->
        generateSlug (w1 ++ sep ++ w2) = w1 ++ "-" ++ w2).
Proof.
  split; [vm_compute; reflexivity|].
  split; [exact generateSlug_steps|].
  split; [exact generateSlug_one_pass|]. split.
  - intros title. split; [apply generateSlug_chars|].
    split; [apply generateSlug_no_double_dash | apply generateSlug_toLowerCase].
  - apply generateSlug_words.
Qed.

Lemma generateSlug_spec_witness :
  generateSlug "dev  -- events" = "dev-events".
Proof.
  refine (proj2 (proj2 (proj2 (proj2 generateSlug_spec)))
            "dev" "  -- " "events" _ _ _ _ _ _);
    first [reflexivity | vm_compute; discriminate].
Defined.

(** C3 as stated fails: on the title " dev events " the steps the
    specification lists give "-dev-events-", a dash for each of the two
    surrounding spaces, and [generateSlug], which removes them first,
    gives "dev-events". *)
Lemma generateSlug_differs_from_spec_steps :
  spec_generateSlug " dev events " = "-dev-events-"
  /\ generateSlug " dev events " = "dev-events"
  /\ generateSlug " dev events " <> spec_generateSlug " dev events ".
Proof. split_and!; [reflexivity | reflexivity | discriminate]. Qed.

(** ** [normalizeDate] *)

Section NormalizeDate.

Variable host_parse : jsstring -> option Z.

Lemma normalizeDate_invalid value :
  Date.parse host_parse value = None ->
  normalizeDate host_parse value = Throw "Invalid event date".
Proof. intros H. unfold normalizeDate. now rewrite H. Qed.

Lemma normalizeDate_valid value t :
  Date.parse host_parse value = Some t ->
  normalizeDate host_parse value
  = Ok (Date.split_head "T" (Date.toISOString t)).
Proof. intros H. unfold normalizeDate. now rewrite H. Qed.

Lemma normalizeDate_throws_iff value :
  (exists msg, normalizeDate host_parse value = Throw msg)
  <-> Date.parse host_parse value = None.
Proof.
  unfold normalizeDate. destruct (Date.parse host_parse value); split;
    try discriminate; eauto.
  intros [msg H]. discriminate H.
Qed.

Example normalizeDate_2024_03_05 :
  normalizeDate host_parse "2024-03-05T10:00:00Z" = Ok "2024-03-05".
Proof. vm_compute. reflexivity. Qed.

Example normalizeDate_offset :
  normalizeDate host_parse "2024-02-29T23:30:00-05:00" = Ok "2024-03-01".
Proof. vm_compute. reflexivity. Qed.

End NormalizeDate.

Section DateForm.

Local Ltac div_lia := Z.div_mod_to_equations; lia.

(** The two calendar functions agree: the date of a day has that day's
    number. *)
Lemma days_from_civil_from_days z :
  let '(y, m, d) := Date.civil_from_days z in Date.days_from_civil y m d = z.
Proof.
  unfold Date.civil_from_days, Date.days_from_civil. cbv zeta.
  set (z' := z + 719468).
  set (era := z' / 146097).
  set (doe := z' - era * 146097).
  assert (Hdoe : 0 <= doe < 146097) by (subst doe era; div_lia).
  set (yoe := (doe - doe / 1460 + doe / 36524 - doe / 146096) / 365).
  assert (Hyoe : 0 <= yoe <= 399) by (subst yoe; div_lia).
  set (doy := doe - (365 * yoe + yoe / 4 - yoe / 100)).
  assert (Hdoy : 0 <= doy <= 365) by (subst doy yoe; div_lia).
  set (mp := (5 * doy + 2) / 153).
  assert (Hmp : 0 <= mp <= 11) by (subst mp; div_lia).
  destruct (Z.ltb_spec mp 10).
  - destruct (Z.leb_spec (mp + 3) 2); [lia|].
    replace (mp + 3 - 3) with mp by lia.
    replace ((yoe + era * 400) / 400) with era by div_lia.
    replace (yoe + era * 400 - era * 400) with yoe by lia.
    subst doy z'. lia.
  - destruct (Z.leb_spec (mp - 9) 2); [|lia].
    replace (mp - 9 + 9) with mp by lia.
    replace (yoe + era * 400 + 1 - 1) with (yoe + era * 400) by lia.
    replace ((yoe + era * 400) / 400) with era by div_lia.
    replace (yoe + era * 400 - era * 400) with yoe by lia.
    subst doy z'. lia.
Qed.

(** The date of a day is a date of the calendar. *)
Lemma civil_from_days_valid z :
  let '(y, m, d) := Date.civil_from_days z in
  1 <= m <= 12 /\ 1 <= d <= Date.days_in_month y m.
Proof.
  unfold Date.civil_from_days. cbv zeta.
  set (z' := z + 719468).
  set (era := z' / 146097).
  set (doe := z' - era * 146097).
  assert (Hdoe : 0 <= doe < 146097) by (subst doe era; div_lia).
  set (yoe := (doe - doe / 1460 + doe / 36524 - doe / 146096) / 365).
  assert (Hyoe : 0 <= yoe <= 399) by (subst yoe; div_lia).
  set (doy := doe - (365 * yoe + yoe / 4 - yoe / 100)).
  assert (Hdoy : 0 <= doy <= 365) by (subst doy yoe; div_lia).
  assert (Hleap : doy = 365 ->
            (yoe + 1) mod 4 = 0 /\ ((yoe + 1) mod 100 <> 0 \/ yoe = 399))
    by (subst doy yoe; intros; div_lia).
  set (mp := (5 * doy + 2) / 153).
  assert (Hmp : 0 <= mp <= 11) by (subst mp; div_lia).
  set (d := doy - (153 * mp + 2) / 5 + 1).
  assert (Hd : 1 <= d <= 31) by (subst d mp; div_lia).
  assert (Hfeb : mp = 11 -> d <= 29 /\ (d = 29 -> doy = 365))
    by (subst d mp; intros; div_lia).
  assert (H30 : mp = 1 \/ mp = 3 \/ mp = 6 \/ mp = 8 -> d <= 30)
    by (subst d mp; intros; div_lia).
  unfold Date.days_in_month, Date.is_leap.
  destruct (Z.ltb_spec mp 10).
  - destruct (Z.leb_spec (mp + 3) 2); [lia|].
    split; [lia|]. split; [lia|].
    destruct (Z.eqb_spec (mp + 3) 2); [lia|].
    destruct (Z.eqb_spec (mp + 3) 4), (Z.eqb_spec (mp + 3) 6),
      (Z.eqb_spec (mp + 3) 9), (Z.eqb_spec (mp + 3) 11); simpl; lia.
  - destruct (Z.leb_spec (mp - 9) 2); [|lia].
    split; [lia|]. split; [lia|].
    destruct (Z.eqb_spec (mp - 9) 2) as [Hfebruary|].
    + assert (Hmp11 : mp = 11) by lia. destruct (Hfeb Hmp11) as [H29 Hd29].
      destruct (Z.eqb_spec ((yoe + era * 400 + 1) mod 4) 0) as [H4|H4]; simpl.
      * destruct (Z.eqb_spec ((yoe + era * 400 + 1) mod 100) 0) as [H100|];
          simpl; [|lia].
        destruct (Z.eqb_spec ((yoe + era * 400 + 1) mod 400) 0) as [|H400];
          [lia|].
        assert (d <> 29); [|lia]. intros Hd'.
        apply Hd29 in Hd'. apply Hleap in Hd'.
        revert H4 H100 H400 Hd' Hyoe. clear. intros. div_lia.
      * assert (d <> 29); [|lia]. intros Hd'.
        apply Hd29 in Hd'. apply Hleap in Hd'.
        revert H4 Hd' Hyoe. clear. intros. div_lia.
    + destruct (Z.eqb_spec (mp - 9) 4), (Z.eqb_spec (mp - 9) 6),
        (Z.eqb_spec (mp - 9) 9), (Z.eqb_spec (mp - 9) 11); simpl; lia.
Qed.

Lemma civil_from_days_month_day z y m d :
  Date.civil_from_days z = (y, m, d) -> 1 <= m <= 12 /\ 1 <= d <= 31.
Proof.
  intros H. pose proof (civil_from_days_valid z) as Hv. rewrite H in Hv.
  destruct Hv as [Hm Hd]. split; [exact Hm|].
  unfold Date.days_in_month in Hd.
  destruct (m =? 2); [destruct (Date.is_leap y); lia|].
  destruct ((m =? 4) || (m =? 6) || (m =? 9) || (m =? 11)); lia.
Qed.

Lemma digit_char_is_digit r : 0 <= r <= 9 -> is_digit (digit_char r) = true.
Proof.
  intros Hr.
  assert (r = 0 \/ r = 1 \/ r = 2 \/ r = 3 \/ r = 4 \/ r = 5 \/ r = 6
          \/ r = 7 \/ r = 8 \/ r = 9) as H by lia.
  repeat destruct H as [-> | H]; try reflexivity. now subst.
Qed.

Lemma decimal_digits : forall fuel n acc,
  forallb is_digit acc = true ->
  forallb is_digit (Js.decimal fuel n acc) = true.
Proof.
  induction fuel as [|fuel IH]; intros n acc Hacc;
    assert (Hd : is_digit (digit_char (n mod 10)) = true)
      by (apply digit_char_is_digit; pose proof (Z.mod_pos_bound n 10); lia);
    simpl.
  - now rewrite Hd.
  - destruct (n <? 10); [simpl; now rewrite Hd|].
    apply IH. simpl. now rewrite Hd.
Qed.

Lemma decimal_length : forall fuel n k acc,
  0 <= n < 10 ^ Z.of_nat (S k) ->
  (1 + length acc <= length (Js.decimal fuel n acc) <= S k + length acc)%nat.
Proof.
  induction fuel as [|fuel IH]; intros n k acc Hn; simpl; [lia|].
  destruct (Z.ltb_spec n 10); [simpl; lia|].
  destruct k as [|k]; [simpl in Hn; lia|].
  assert (Hdiv : 0 <= n / 10 < 10 ^ Z.of_nat (S k)).
  { split; [apply Z.div_pos; lia|].
    apply Z.div_lt_upper_bound; [lia|].
    rewrite <- Z.pow_succ_r by lia. now rewrite <- Nat2Z.inj_succ. }
  specialize (IH (n / 10) k (digit_char (n mod 10) :: acc) Hdiv).
  simpl in IH. lia.
Qed.

Lemma forallb_replicate (P : ascii -> bool) n c :
  P c = true -> forallb P (replicate n c) = true.
Proof. intros Hc. induction n as [|n IH]; simpl; [|rewrite Hc]; auto. Qed.

Lemma pad_digits k n : 0 <= n -> forallb is_digit (Date.pad k n) = true.
Proof.
  intros Hn. unfold Date.pad, padStart, toString.
  replace (n <? 0) with false by (symmetry; apply Z.ltb_ge; lia).
  rewrite forallb_app, forallb_replicate by reflexivity.
  now apply decimal_digits.
Qed.

Lemma pad_length k n :
  0 <= n < 10 ^ Z.of_nat (S k) -> length (Date.pad (S k) n) = S k.
Proof.
  intros Hn. unfold Date.pad, padStart, toString.
  replace (n <? 0) with false by (symmetry; apply Z.ltb_ge; lia).
  rewrite length_app, length_replicate.
  pose proof (decimal_length (Z.to_nat (Z.log2 n)) n k [] Hn) as H.
  simpl in H. lia.
Qed.

Lemma split_head_app sep a rest :
  forallb (fun c => negb (is_char sep c)) a = true ->
  Date.split_head sep (a ++ sep :: rest) = a.
Proof.
  induction a as [|c a IH]; simpl; intros Ha.
  - replace (is_char sep sep) with true; [reflexivity|].
    symmetry. now apply is_char_eq.
  - apply andb_true_iff in Ha as [Hc Ha]. apply negb_true_iff in Hc.
    now rewrite Hc, IH.
Qed.

Lemma digits_not_T s :
  forallb is_digit s = true ->
  forallb (fun c => negb (is_char "T" c)) s = true.
Proof.
  apply forallb_impl. intros c Hc. apply is_digit_cases in Hc. simpl in Hc.
  repeat destruct Hc as [<- | Hc]; try reflexivity. destruct Hc.
Qed.

Lemma is_YYYY_MM_DD_head c s :
  is_YYYY_MM_DD (c :: s) = true -> is_digit c = true.
Proof.
  destruct s as [|c1 [|c2 [|c3 [|c4 [|c5 [|c6 [|c7 [|c8 [|c9 [|c10 s]]]]]]]]]];
    try discriminate.
  unfold is_YYYY_MM_DD, forallb. intros H.
  destruct (is_digit c); [reflexivity | discriminate H].
Qed.

Lemma is_YYYY_MM_DD_pads y m d :
  length y = 4%nat -> length m = 2%nat -> length d = 2%nat ->
  forallb is_digit y = true -> forallb is_digit m = true ->
  forallb is_digit d = true ->
  is_YYYY_MM_DD (y ++ "-" ++ m ++ "-" ++ d) = true.
Proof.
  intros Hly Hlm Hld Hy Hm Hd.
  destruct y as [|y1 [|y2 [|y3 [|y4 [|? ?]]]]]; try discriminate Hly.
  destruct m as [|m1 [|m2 [|? ?]]]; try discriminate Hlm.
  destruct d as [|d1 [|d2 [|? ?]]]; try discriminate Hld.
  simpl in Hy, Hm, Hd.
  repeat match goal with
  | H : _ && _ = true |- _ => apply andb_true_iff in H as [? H]
  end.
  unfold is_YYYY_MM_DD. simpl.
  repeat match goal with
  | H : is_digit _ = true |- _ => rewrite H; clear H
  end.
  reflexivity.
Qed.

Variable host_parse : jsstring -> option Z.

(** The result of [normalizeDate] on a date the runtime reads: the UTC
    calendar date, of the form [YYYY-MM-DD] exactly when the year lies
    from 0 to 9999. *)
Lemma normalizeDate_form value t y m d :
  Date.parse host_parse value = Some t ->
  Date.civil_from_days (t / Date.msPerDay) = (y, m, d) ->
  exists r,
    normalizeDate host_parse value = Ok r
    /\ (0 <= y <= 9999 ->
        r = Date.pad 4 y ++ "-" ++ Date.pad 2 m ++ "-" ++ Date.pad 2 d
        /\ is_YYYY_MM_DD r = true)
    /\ (~ 0 <= y <= 9999 -> is_YYYY_MM_DD r = false).
Proof.
  intros Hparse Hcivil.
  rewrite (normalizeDate_valid _ _ _ Hparse). eexists. split; [reflexivity|].
  destruct (civil_from_days_month_day _ _ _ _ Hcivil) as [Hm Hd].
  unfold Date.toISOString. rewrite Hcivil.
  assert (Hpm : forallb is_digit (Date.pad 2 m) = true) by (apply pad_digits; lia).
  assert (Hpd : forallb is_digit (Date.pad 2 d) = true) by (apply pad_digits; lia).
  assert (Hlm : length (Date.pad 2 m) = 2%nat)
    by (apply pad_length; change (10 ^ Z.of_nat 2) with 100; lia).
  assert (Hld : length (Date.pad 2 d) = 2%nat)
    by (apply pad_length; change (10 ^ Z.of_nat 2) with 100; lia).
  assert (Hsplit : forall year rest,
    forallb (fun c => negb (is_char "T" c)) year = true ->
    Date.split_head "T"
      (year ++ "-" ++ Date.pad 2 m ++ "-" ++ Date.pad 2 d ++ "T" ++ rest)
    = year ++ "-" ++ Date.pad 2 m ++ "-" ++ Date.pad 2 d).
  { intros year rest Hyear.
    replace (year ++ "-" ++ Date.pad 2 m ++ "-" ++ Date.pad 2 d ++ "T" ++ rest)
      with ((year ++ "-" ++ Date.pad 2 m ++ "-" ++ Date.pad 2 d)
              ++ "T"%char :: rest)
      by (now rewrite <- !app_assoc).
    apply split_head_app.
    rewrite !forallb_app, Hyear, (digits_not_T _ Hpm), (digits_not_T _ Hpd).
    reflexivity. }
  split.
  - intros Hy.
    replace ((0 <=? y) && (y <=? 9999)) with true
      by (symmetry; apply andb_true_iff; split; apply Z.leb_le; lia).
    rewrite Hsplit by (apply digits_not_T, pad_digits; lia).
    split; [reflexivity|].
    apply is_YYYY_MM_DD_pads; auto.
    + apply pad_length. change (10 ^ Z.of_nat 4) with 10000. lia.
    + apply pad_digits. lia.
  - intros Hy.
    replace ((0 <=? y) && (y <=? 9999)) with false
      by (symmetry; apply andb_false_iff;
          destruct (Z.leb_spec 0 y); [right; apply Z.leb_gt; lia | now left]).
    assert (Hsign : exists sign,
              (if y <? 0 then "-"%char else "+"%char) = sign
              /\ is_digit sign = false
              /\ negb (is_char "T" sign) = true)
      by (destruct (y <? 0); eexists; repeat split).
    destruct Hsign as (sign & -> & Hnd & HnT).
    rewrite Hsplit
      by (simpl; rewrite HnT; apply digits_not_T, pad_digits; lia).
    destruct (is_YYYY_MM_DD _) eqn:E; [|reflexivity].
    change (is_YYYY_MM_DD
              (sign :: Date.pad 6 (Z.abs y) ++ "-" ++ Date.pad 2 m
                       ++ "-" ++ Date.pad 2 d) = true) in E.
    apply is_YYYY_MM_DD_head in E. congruence.
Qed.

End DateForm.

(** C4, at a date of the year 10000. The string is a date of the format
    every runtime reads, and [normalizeDate] returns the date part of
    [toISOString], which for a year beyond 9999 is a sign and six
    digits: the result is not of the form [YYYY-MM-DD]. *)
Theorem normalizeDate_year_10000 (host_parse : jsstring -> option Z) :
  Date.parse host_parse "+010000-01-01T00:00:00Z" = Some 253402300800000
  /\ normalizeDate host_parse "+010000-01-01T00:00:00Z" = Ok "+010000-01-01"
  /\ is_YYYY_MM_DD "+010000-01-01" = false.
Proof. repeat split; vm_compute; reflexivity. Qed.

(** ** The Event pre-save hook *)

Section EventHook.

Import Event.

Lemma for_each_first body : forall fields,
  (for_each body fields = Ok tt /\ forall f, In f fields -> body f = Ok tt)
  \/ exists before g after msg,
       fields = before ++ g :: after
       /\ (forall f, In f before -> body f = Ok tt)
       /\ body g = Throw msg
       /\ for_each body fields = Throw msg.
Proof.
  induction fields as [|f fields IH]; [left; split; [reflexivity | intros ? []]|].
  simpl. destruct (body f) as [[]|msg] eqn:Ef.
  - destruct IH as [[Hok Hall] | (before & g & after & msg & -> & Hb & Hg & Hthrow)].
    + left. split; [exact Hok|]. intros f' [<- | Hin]; auto.
    + right. exists (f :: before), g, after, msg. repeat split; auto.
      intros f' [<- | Hin]; auto.
  - right. exists [], f, fields, msg. repeat split; auto. intros ? [].
Qed.

Lemma check_string_field_spec doc f :
  In f requiredStringFields ->
  (check_string_field doc f = Ok tt /\ offending doc f = false)
  \/ (offending doc f = true
      /\ check_string_field doc f
         = Throw ("Field " ++ quoted (field_name f) ++ " is required")).
Proof.
  intros Hin. unfold check_string_field.
  assert (Hoff : offending doc f = blank (get doc f)).
  { simpl in Hin. repeat destruct Hin as [<- | Hin]; try reflexivity.
    destruct Hin. }
  rewrite Hoff. destruct (blank (get doc f)); auto.
Qed.

Lemma check_array_field_spec doc f :
  In f requiredArrayFields ->
  (check_array_field doc f = Ok tt /\ offending doc f = false)
  \/ (offending doc f = true
      /\ exists msg, check_array_field doc f = Throw msg /\ names_field msg f).
Proof.
  intros Hin. unfold check_array_field.
  assert (Hoff : offending doc f = bad_array (get doc f)).
  { simpl in Hin. repeat destruct Hin as [<- | Hin]; try reflexivity.
    destruct Hin. }
  rewrite Hoff. unfold bad_array.
  assert (Hthrow : forall reason,
            names_field ("Field " ++ quoted (field_name f) ++ reason) f ->
            (@Throw unit ("Field " ++ quoted (field_name f) ++ reason) = Ok tt
             /\ true = false)
            \/ (true = true
                /\ exists msg,
                     @Throw unit ("Field " ++ quoted (field_name f) ++ reason)
                     = Throw msg /\ names_field msg f)) by eauto.
  destruct (get doc f) as [|s|items];
    try (apply Hthrow; right; left; reflexivity).
  destruct (length items =? 0)%nat;
    [apply Hthrow; right; left; reflexivity|].
  destruct (existsb blank items); [|now left].
  apply Hthrow. right; right; reflexivity.
Qed.

Example check_array_first_item doc :
  agenda doc = Arr [Str " "; Str "Talks"] ->
  check_array_field doc Agenda
  = Throw ("Field " ++ quoted "agenda" ++ " must contain only non-empty strings").
Proof. intros H. unfold check_array_field. simpl. now rewrite H. Qed.

Lemma offending_checked doc f : offending doc f = true -> In f checked_fields.
Proof. destruct f; simpl; intros H; try discriminate H; tauto. Qed.

End EventHook.



Section EventSlug.

Import Event.

Variable host_parse : jsstring -> option Z.

(** What the hook leaves in [slug] when it succeeds. *)
Lemma preSave_slug titleModified doc saved :
  preSave host_parse titleModified doc = Ok saved ->
  slug saved =
    if titleModified || falsy (slug doc)
    then Str (generateSlug (string_of (title doc)))
    else slug doc.
Proof.
  unfold preSave.
  destruct (for_each (check_string_field doc) requiredStringFields);
    [|discriminate].
  destruct (for_each (check_array_field doc) requiredArrayFields);
    [|discriminate].
  destruct (normalizeDate host_parse (string_of (date doc))); [|discriminate].
  destruct (normalizeTime _); [|discriminate].
  simpl. destruct (titleModified || falsy (slug doc));
    intros H; now injection H as <-.
Qed.

End EventSlug.

(** C9. The title "!!!" is not empty and holds no letter and no digit;
    its slug is the empty string; the hook accepts the event and stores
    that slug, and again at the next save; in general the hook, when the
    title is not modified, computes the slug anew exactly when the slug
    is falsy, so an empty slug is regenerated at every save. *)
Theorem empty_slug_saved (host_parse : jsstring -> option Z) :
  generateSlug "!!!" = []
  /\ (forall titleModified,
        Event.preSave host_parse titleModified punctuation_event
        = Ok saved_punctuation_event)
  /\ Event.slug saved_punctuation_event = Str []
  /\ Event.blank (Event.title saved_punctuation_event) = false
  /\ Event.preSave host_parse false saved_punctuation_event
     = Ok saved_punctuation_event
  /\ (forall doc saved,
        Event.preSave host_parse false doc = Ok saved ->
        Event.slug saved =
          if Event.falsy (Event.slug doc)
          then Str (generateSlug (Event.string_of (Event.title doc)))
          else Event.slug doc).
Proof.
  split; [reflexivity|].
  split; [intros []; vm_compute; reflexivity|].
  split; [reflexivity|]. split; [reflexivity|].
  split; [vm_compute; reflexivity|].
  intros doc saved H. now apply preSave_slug in H.
Qed.

Lemma empty_slug_saved_witness :
  Event.slug saved_punctuation_event =
    if Event.falsy (Event.slug saved_punctuation_event)
    then Str (generateSlug (Event.string_of (Event.title saved_punctuation_event)))
    else Event.slug saved_punctuation_event.
Proof.
  apply (proj2 (proj2 (proj2 (proj2 (proj2 (empty_slug_saved (fun _ => None))))))
           saved_punctuation_event saved_punctuation_event).
  vm_compute. reflexivity.
Defined.

(** ** The connection helper *)

Section ConnectionCache.

Import Connection.

Lemma enter_cached w c : conn (cached w) = Some c -> enter w = (w, Returned c).
Proof. intros H. unfold enter. now rewrite H. Qed.

Lemma single_attempt_start : single_attempt start.
Proof.
  unfold single_attempt, start; simpl.
  repeat split; try discriminate; auto with lia.
Qed.

Lemma single_attempt_step pr e :
  no_rejection [e] = true -> single_attempt pr -> single_attempt (step pr e).
Proof.
  intros Hno (Hlen & Hnone & Hsome & Hconn & Hret & Hrej).
  destruct pr as [[[cn pm] att] cs]; simpl in *.
  destruct e as [|p r|i]; unfold single_attempt; simpl.
  - (* Call *)
    unfold enter; simpl. destruct cn as [c|]; simpl.
    + split_and!; auto. intros i c' Hi.
      apply lookup_app_Some in Hi as [Hi | [_ Hi]]; [eauto|].
      apply list_lookup_singleton_Some in Hi as [_ Hi].
      injection Hi as <-. now apply Hconn.
    + destruct pm as [p|]; simpl.
      * split_and!; auto.
        intros i c' Hi.
        apply lookup_app_Some in Hi as [Hi | [_ Hi]]; [eauto|].
        apply list_lookup_singleton_Some in Hi as [_ Hi]. discriminate Hi.
      * rewrite (Hnone eq_refl) in *. simpl.
        split_and!; auto; try discriminate.
        -- intros p Hp. now injection Hp as <-.
        -- intros i c' Hi.
           apply lookup_app_Some in Hi as [Hi | [_ Hi]].
           ++ apply Hret in Hi. discriminate Hi.
           ++ apply list_lookup_singleton_Some in Hi as [_ Hi]. discriminate Hi.
        -- intros [|[|p]] e' H; discriminate H.
  - (* Settle *)
    unfold settle; simpl.
    destruct (att !! p) as [[| |]|] eqn:Ep; simpl;
      try (split_and!; auto; fail).
    assert (p = 0%nat) as ->.
    { apply lookup_lt_Some in Ep. lia. }
    assert (Hlt : (0 < length att)%nat) by (apply lookup_lt_Some in Ep; lia).
    split_and!; rewrite ?length_insert; auto.
    + intros Hp. apply Hnone in Hp. subst att. discriminate Ep.
    + intros c Hc. apply Hconn in Hc. congruence.
    + intros i c Hi. apply Hret in Hi. congruence.
    + intros [|q] e' H.
      * rewrite list_lookup_insert_eq in H by exact Hlt.
        injection H as ->. simpl in Hno. discriminate Hno.
      * rewrite list_lookup_insert_ne in H by discriminate. now apply Hrej in H.
  - (* Continue *)
    destruct (cs !! i) as [[p | c | e']|] eqn:Ei; simpl;
      try (split_and!; auto; fail).
    unfold resume; simpl.
    destruct (att !! p) as [[| c | e']|] eqn:Ep; simpl;
      try (split_and!; auto; fail).
    + assert (p = 0%nat) as ->.
      { apply lookup_lt_Some in Ep. lia. }
      split_and!; auto.
      * intros c' Hc. now injection Hc as <-.
      * intros j c' Hj.
        destruct (decide (i = j)) as [<- | Hne].
        -- rewrite list_lookup_insert_eq in Hj by (now apply lookup_lt_Some in Ei).
           now injection Hj as <-.
        -- rewrite list_lookup_insert_ne in Hj by exact Hne. eauto.
    + now apply Hrej in Ep.
Qed.

Lemma single_attempt_run events : forall pr,
  no_rejection events = true -> single_attempt pr ->
  single_attempt (run pr events).
Proof.
  induction events as [|e events IH]; intros pr Hno Hinv; [exact Hinv|].
  simpl in Hno. apply andb_true_iff in Hno as [He Hno].
  simpl. apply IH; [exact Hno|].
  apply single_attempt_step; [|exact Hinv]. simpl. now rewrite He.
Qed.

End ConnectionCache.

(** C5. With the cache as the explicit state [{conn, promise}]: once a
    connection is cached, a call returns it at once and leaves the state
    as it is, so no attempt is made; two calls made on an empty cache
    before the attempt is settled await the same promise, the only one
    made, and both return the connection it is fulfilled with; and along
    any run without rejection one attempt at most is made and all the
    calls that return, return the same connection. *)
Theorem connect_once :
  (forall w c,
     Connection.conn (Connection.cached w) = Some c ->
     Connection.enter w = (w, Connection.Returned c))
  /\ (forall w c,
        Connection.conn (Connection.cached w) = None ->
        Connection.promise (Connection.cached w) = None ->
        let p := length (Connection.attempts w) in
        exists w1 w2,
          Connection.enter w = (w1, Connection.Awaiting p)
          /\ Connection.enter w1 = (w1, Connection.Awaiting p)
          /\ Connection.attempts w1 = Connection.attempts w ++ [Connection.Pending]
          /\ Connection.resume p (Connection.settle p (Connection.Fulfilled c) w1)
             = Some (w2, Connection.Returned c)
          /\ Connection.resume p w2 = Some (w2, Connection.Returned c)
          /\ Connection.enter w2 = (w2, Connection.Returned c)
          /\ length (Connection.attempts w2) = S p)
  /\ (forall events,
        no_rejection events = true ->
        let pr := Connection.run Connection.start events in
        (length (Connection.attempts (Connection.state pr)) <= 1)%nat
        /\ forall i j c c',
             Connection.calls pr !! i = Some (Connection.Returned c) ->
             Connection.calls pr !! j = Some (Connection.Returned c') ->
             c = c').
Proof.
  split; [exact enter_cached|]. split.
  - intros [[cn pm] att] c Hc Hp. simpl in *. subst cn pm.
    eexists _, _. unfold Connection.enter; simpl.
    split; [reflexivity|]. split; [reflexivity|]. split; [reflexivity|].
    unfold Connection.settle, Connection.resume; simpl.
    rewrite lookup_app_r, Nat.sub_diag by lia. simpl.
    rewrite list_lookup_insert_eq by (rewrite length_app; simpl; lia).
    split; [reflexivity|]. simpl.
    rewrite list_lookup_insert_eq by (rewrite length_app; simpl; lia).
    split; [reflexivity|]. split; [reflexivity|].
    rewrite length_insert, length_app. simpl. lia.
  - intros events Hno pr.
    destruct (single_attempt_run events Connection.start Hno single_attempt_start)
      as (Hlen & _ & _ & _ & Hret & _).
    split; [exact Hlen|]. intros i j c c' Hi Hj.
    apply Hret in Hi, Hj. congruence.
Qed.

Lemma connect_once_witness :
  (length
     (Connection.attempts
        (Connection.state
           (Connection.run Connection.start
              [Connection.Call; Connection.Call;
               Connection.Settle 0 (Connection.Fulfilled 42%N);
               Connection.Continue 1; Connection.Continue 0;
               Connection.Call]))) <= 1)%nat.
Proof.
  exact (proj1 (proj2 (proj2 connect_once)
                  [Connection.Call; Connection.Call;
                   Connection.Settle 0 (Connection.Fulfilled 42%N);
                   Connection.Continue 1; Connection.Continue 0;
                   Connection.Call]
                  eq_refl)).
Defined.

Example two_calls_one_connection :
  Connection.run Connection.start
    [Connection.Call; Connection.Call;
     Connection.Settle 0 (Connection.Fulfilled 42%N);
     Connection.Continue 1; Connection.Continue 0; Connection.Call]
  = {| Connection.state :=
         {| Connection.cached :=
              {| Connection.conn := Some 42%N; Connection.promise := Some 0%nat |};
            Connection.attempts := [Connection.Fulfilled 42%N] |};
       Connection.calls :=
         [Connection.Returned 42%N; Connection.Returned 42%N;
          Connection.Returned 42%N] |}.
Proof. reflexivity. Qed.

Example retry_after_failure :
  Connection.run Connection.start
    [Connection.Call; Connection.Settle 0 (Connection.Rejected "ECONNREFUSED");
     Connection.Continue 0; Connection.Call;
     Connection.Settle 1 (Connection.Fulfilled 7%N); Connection.Continue 1]
  = {| Connection.state :=
         {| Connection.cached :=
              {| Connection.conn := Some 7%N; Connection.promise := Some 1%nat |};
            Connection.attempts :=
              [Connection.Rejected "ECONNREFUSED"; Connection.Fulfilled 7%N] |};
       Connection.calls :=
         [Connection.Thrown "ECONNREFUSED"; Connection.Returned 7%N] |}.
Proof. reflexivity. Qed.

(** C6. When the attempt a call awaits has failed, the call throws the
    error of the attempt and clears the cached promise, the rest of the
    state being as it was; with no connection cached, the next call then
    makes a new attempt and awaits it. *)
Theorem connect_failure_resets
    (w : Connection.world) (p : Connection.promise_id) (error : jsstring) :
  Connection.attempts w !! p = Some (Connection.Rejected error) ->
  exists w',
    Connection.resume p w = Some (w', Connection.Thrown error)
    /\ Connection.promise (Connection.cached w') = None
    /\ Connection.conn (Connection.cached w') = Connection.conn (Connection.cached w)
    /\ Connection.attempts w' = Connection.attempts w
    /\ (Connection.conn (Connection.cached w) = None ->
        Connection.enter w'
        = ({| Connection.cached :=
                {| Connection.conn := None;
                   Connection.promise := Some (length (Connection.attempts w)) |};
              Connection.attempts := Connection.attempts w ++ [Connection.Pending] |},
           Connection.Awaiting (length (Connection.attempts w)))).
Proof.
  intros Hp. unfold Connection.resume. rewrite Hp.
  eexists. split; [reflexivity|]. simpl.
  repeat split. intros Hc. unfold Connection.enter; simpl. now rewrite Hc.
Qed.

Lemma connect_failure_resets_witness :
  exists w',
    Connection.resume 0 refused_world = Some (w', Connection.Thrown "ECONNREFUSED")
    /\ Connection.promise (Connection.cached w') = None
    /\ Connection.conn (Connection.cached w')
       = Connection.conn (Connection.cached refused_world)
    /\ Connection.attempts w' = Connection.attempts refused_world
    /\ (Connection.conn (Connection.cached refused_world) = None ->
        Connection.enter w'
        = ({| Connection.cached :=
                {| Connection.conn := None;
                   Connection.promise :=
                     Some (length (Connection.attempts refused_world)) |};
              Connection.attempts :=
                Connection.attempts refused_world ++ [Connection.Pending] |},
           Connection.Awaiting (length (Connection.attempts refused_world)))).
Proof.
  exact (connect_failure_resets refused_world 0%nat "ECONNREFUSED" eq_refl).
Defined.

(** ** The Booking pre-save hook *)

Section BookingHook.

Import Booking.

Lemma matches_Plus cls s caps caps1 :
  matches (Plus cls) s caps caps1 ->
  s <> [] /\ forallb cls s = true /\ caps1 = caps.
Proof.
  unfold Plus. inversion 1 as [? ? ? ? ? [Hlo _] Hall| | | |]; subst.
  repeat split; auto. intros ->. simpl in Hlo. lia.
Qed.

Lemma matches_Plus_intro cls s caps :
  s <> [] -> forallb cls s = true -> matches (Plus cls) s caps caps.
Proof.
  intros Hs Hall. constructor; [|exact Hall].
  split; [|exact I]. destruct s; [congruence | simpl; lia].
Qed.

Lemma test_emailRegex s : test emailRegex s = true <-> email_shape s.
Proof.
  unfold test. rewrite bool_decide_eq_true. split.
  - intros [out H]. apply String_match_sound in H. unfold emailRegex in H.
    inversion H as [|? ? l s1 ? c1 ? Hl H1| | |]; subst; clear H.
    inversion H1 as [|? ? at_ s2 ? c2 ? Hat H2| | |]; subst; clear H1.
    inversion H2 as [|? ? d s3 ? c3 ? Hd H3| | |]; subst; clear H2.
    inversion H3 as [|? ? dot t ? c4 ? Hdot Ht| | |]; subst; clear H3.
    apply matches_Plus in Hl as (Hl & Hal & _).
    apply matches_Chr in Hat as [-> _].
    apply matches_Plus in Hd as (Hd & Had & _).
    apply matches_Chr in Hdot as [-> _].
    apply matches_Plus in Ht as (Ht & Hat & _).
    now exists l, d, t.
  - intros (l & d & t & -> & Hl & Hd & Ht & Hal & Had & Hat).
    apply (String_match_complete _ _ ∅). unfold emailRegex.
    apply matches_seq with (caps1 := ∅); [now apply matches_Plus_intro|].
    apply (matches_seq _ _ ["@"%char] _ _ ∅); [apply matches_Chr_intro|].
    apply matches_seq with (caps1 := ∅); [now apply matches_Plus_intro|].
    apply (matches_seq _ _ ["."%char] _ _ ∅); [apply matches_Chr_intro|].
    now apply matches_Plus_intro.
Qed.

Lemma Event_exists_false events id :
  Event_exists events id = false <-> events !! id = None.
Proof.
  unfold Event_exists. rewrite bool_decide_eq_false.
  rewrite <- eq_None_not_Some. reflexivity.
Qed.

End BookingHook.

(** C7. The Booking pre-save hook fails if and only if the email does
    not read [local@domain.tld] or no Event has the id of the booking:
    with the address "foo@bar" it fails whatever the events are, and
    with a well-formed address and an id of no Event it fails too. *)
Theorem Booking_preSave_fails
    (events : gmap Booking.ObjectId Event.EventDocument)
    (doc : Booking.BookingDocument) :
  ((exists msg, Booking.preSave events doc = Throw msg)
     <-> (~ email_shape (Booking.email doc)
          \/ events !! Booking.eventId doc = None))
  /\ Booking.preSave events
       {| Booking.eventId := Booking.eventId doc; Booking.email := "foo@bar" |}
     = Throw "Invalid email address"
  /\ (email_shape (Booking.email doc) ->
      events !! Booking.eventId doc = None ->
      Booking.preSave events doc = Throw "Referenced event does not exist").
Proof.
  unfold Booking.preSave. split; [|split].
  - destruct (test Booking.emailRegex (Booking.email doc)) eqn:Et; simpl.
    + apply test_emailRegex in Et.
      destruct (Booking.Event_exists events (Booking.eventId doc)) eqn:Ee; simpl.
      * split; [intros [msg H]; discriminate H|].
        intros [H | H]; [now destruct H|].
        apply Event_exists_false in H. congruence.
      * apply Event_exists_false in Ee. split; eauto.
    + split; [|eauto]. intros _. left. intros Hs.
      apply test_emailRegex in Hs. congruence.
  - reflexivity.
  - intros Hs Hnone. apply test_emailRegex in Hs. rewrite Hs. simpl.
    apply Event_exists_false in Hnone. now rewrite Hnone.
Qed.

Lemma Booking_preSave_fails_witness :
  Booking.preSave ∅ {| Booking.eventId := 7%N; Booking.email := "ann@example.com" |}
  = Throw "Referenced event does not exist".
Proof.
  apply (proj2 (proj2 (Booking_preSave_fails ∅
           {| Booking.eventId := 7%N; Booking.email := "ann@example.com" |}))).
  - exists "ann", "example", "com". repeat split; discriminate.
  - reflexivity.
Defined.

(** * Further properties *)

(** ** White space around a string *)

Section Trim.

Lemma trimStart_spaces a s :
  forallb is_space a = true -> trimStart (a ++ s) = trimStart s.
Proof.
  induction a as [|c a IH]; [reflexivity|]. simpl. intros H.
  apply andb_true_iff in H as [Hc Ha]. rewrite Hc. now apply IH.
Qed.

Lemma trimStart_app s b :
  trimStart (s ++ b) = if forallb is_space s then trimStart b else trimStart s ++ b.
Proof.
  induction s as [|c s IH]; [reflexivity|]. simpl.
  destruct (is_space c); [exact IH | reflexivity].
Qed.

Lemma forallb_rev (P : ascii -> bool) s : forallb P (rev s) = forallb P s.
Proof.
  induction s as [|c s IH]; [reflexivity|]. simpl.
  rewrite forallb_app, IH. simpl. rewrite andb_true_r. apply andb_comm.
Qed.

Lemma trimEnd_spaces s b :
  forallb is_space b = true -> trimEnd (s ++ b) = trimEnd s.
Proof.
  intros Hb. unfold trimEnd. rewrite rev_app_distr, trimStart_spaces; [reflexivity|].
  now rewrite forallb_rev.
Qed.

Lemma trimStart_all_spaces s : forallb is_space s = true -> trimStart s = [].
Proof.
  intros H. rewrite <- (app_nil_r s). now rewrite trimStart_spaces.
Qed.

Lemma trim_spaces a s b :
  forallb is_space a = true -> forallb is_space b = true ->
  trim (a ++ s ++ b) = trim s.
Proof.
  intros Ha Hb. unfold trim. rewrite (trimStart_spaces a _ Ha), trimStart_app.
  destruct (forallb is_space s) eqn:Es.
  - now rewrite (trimStart_all_spaces b Hb), (trimStart_all_spaces s Es).
  - now apply trimEnd_spaces.
Qed.

Lemma trimStart_no_space s :
  forallb (fun c => negb (is_space c)) s = true -> trimStart s = s.
Proof.
  destruct s as [|c s]; [reflexivity|]. simpl. intros H.
  apply andb_true_iff in H as [Hc _]. apply negb_true_iff in Hc. now rewrite Hc.
Qed.

Lemma trim_no_space s :
  forallb (fun c => negb (is_space c)) s = true -> trim s = s.
Proof.
  intros H. unfold trim, trimEnd. rewrite (trimStart_no_space s H).
  rewrite trimStart_no_space by now rewrite forallb_rev.
  apply rev_involutive.
Qed.

(** A character that is not white space survives [trim]. *)
Lemma In_trimStart c s :
  In c s -> is_space c = false -> In c (trimStart s).
Proof.
  induction s as [|x s IH]; [intros []|]. simpl. intros [-> | Hin] Hc.
  - rewrite Hc. now left.
  - destruct (is_space x); [now apply IH | now right].
Qed.

Lemma In_trim c s : In c s -> is_space c = false -> In c (trim s).
Proof.
  intros Hin Hc. unfold trim, trimEnd. apply -> in_rev.
  apply In_trimStart; [|exact Hc]. apply -> in_rev. now apply In_trimStart.
Qed.

(** A string that starts with a character other than white space is not
    blank. *)
Lemma trim_head_not_empty c s : is_space c = false -> trim (c :: s) <> [].
Proof.
  intros Hc H.
  assert (Hin : In c (trim (c :: s))) by (apply In_trim; [now left | exact Hc]).
  rewrite H in Hin. destruct Hin.
Qed.

End Trim.

(** ** More on [normalizeTime] and [generateSlug] *)

Section Renormalize.

Lemma Number_two_digits h :
  (length h = 1 \/ length h = 2)%nat -> Number (two_digits h) = Number h.
Proof.
  intros [Hl | Hl]; destruct h as [|a [|b [|? ?]]]; try discriminate Hl;
    [|reflexivity].
  unfold Number. cbn [two_digits fold_left].
  change (digit_value "0") with 0. lia.
Qed.

Lemma normalizeTime_idem s r :
  normalizeTime s = Ok r -> normalizeTime r = Ok r.
Proof.
  intros H. apply normalizeTime_Ok in H as (h & m & Hs & Hh & Hm & ->).
  destruct Hs as (Hlh & Hlm & Hdh & Hdm & _).
  assert (Hs : time_shape (two_digits h ++ ":" ++ m) (two_digits h) m).
  { repeat split; auto.
    - right. destruct Hlh as [Hl | Hl];
        destruct h as [|a [|b [|? ?]]]; try discriminate Hl; reflexivity.
    - destruct Hlh as [Hl | Hl];
        destruct h as [|a [|b [|? ?]]]; try discriminate Hl; [|exact Hdh].
      apply all_digits_cons. split; [reflexivity | exact Hdh]. }
  assert (Ht : time_shape (trim (two_digits h ++ ":" ++ m)) (two_digits h) m)
    by now rewrite (trim_time_shape _ _ _ Hs).
  rewrite (normalizeTime_shape _ _ _ Ht), (Number_two_digits h Hlh).
  destruct (Z.gtb_spec (Number h) 23), (Z.gtb_spec (Number m) 59); try lia.
  simpl. destruct Hlh as [Hl | Hl];
    destruct h as [|a [|b [|? ?]]]; try discriminate Hl; reflexivity.
Qed.

Lemma toLowerCase_spaces a :
  forallb is_space a = true -> forallb is_space (toLowerCase a) = true.
Proof.
  unfold toLowerCase. induction a as [|c a IH]; [reflexivity|]. simpl.
  intros H. apply andb_true_iff in H as [Hc Ha].
  now rewrite is_space_lower_char, Hc, IH.
Qed.

Lemma slug_char_kept s :
  forallb slug_char s = true ->
  forallb (fun c => is_lower c || is_digit c || is_space c || is_dash c) s = true
  /\ forallb (fun c => negb (is_space c)) s = true.
Proof.
  intros H. split; revert H; apply forallb_impl; intros c;
    destruct c as [[] [] [] [] [] [] [] []]; vm_compute; congruence.
Qed.

Lemma is_dash_eq c : is_dash c = true -> c = "-"%char.
Proof. intros H. now apply (is_char_eq "-"). Qed.

Lemma replace_dashes_single s : forall b,
  no_double_dash s = true ->
  (b = true -> forall c rest, s = c :: rest -> is_dash c = false) ->
  replace_runs_from is_dash ["-"%char] b s = s.
Proof.
  induction s as [|c s IH]; intros b Hn Hb; [reflexivity|].
  change (no_double_dash (c :: s))
    with (match s with c2 :: _ => negb (is_dash c && is_dash c2) | [] => true end
          && no_double_dash s) in Hn.
  apply andb_true_iff in Hn as [Hc Hn]. cbn [replace_runs_from].
  destruct (is_dash c) eqn:Ec.
  - destruct b; [rewrite (Hb eq_refl c s eq_refl) in Ec; discriminate Ec|].
    apply is_dash_eq in Ec as ->. cbn [app]. f_equal. apply IH; [exact Hn|].
    intros _ c2 rest ->. simpl in Hc. now apply negb_true_iff in Hc.
  - f_equal. apply IH; [exact Hn | discriminate].
Qed.

Lemma lowered_word_char c :
  is_lower c || is_upper c || is_digit c = true ->
  word_char (lower_char c) = true /\ is_space (lower_char c) = false
  /\ is_dash (lower_char c) = false.
Proof.
  destruct c as [[] [] [] [] [] [] [] []]; vm_compute;
    first [discriminate | tauto].
Qed.

Lemma In_replace_runs_from cls by_ c : forall s b,
  In c s -> cls c = false -> In c (replace_runs_from cls by_ b s).
Proof.
  induction s as [|x s IH]; intros b Hin Hc; [destruct Hin|].
  simpl. destruct Hin as [<- | Hin].
  - rewrite Hc. now left.
  - destruct (cls x); [destruct b|]; [| apply in_or_app; right | right];
      now apply IH.
Qed.

End Renormalize.

(** X3. [normalizeTime] leaves its own results as they are: a time it has
    returned is accepted again and returned unchanged. *)
Theorem normalizeTime_idempotent (s r : jsstring) :
  normalizeTime s = Ok r -> normalizeTime r = Ok r.
Proof. apply normalizeTime_idem. Qed.

Lemma normalizeTime_idempotent_witness : normalizeTime "09:05" = Ok "09:05".
Proof.
  apply (normalizeTime_idempotent " 9:05:59 " "09:05"). vm_compute. reflexivity.
Defined.

(** X4. White space around the input changes nothing: [normalizeTime]
    gives the same result or the same error, and [generateSlug] the same
    slug. *)
Theorem surrounding_space_ignored (a s b : jsstring) :
  forallb is_space a = true -> forallb is_space b = true ->
  normalizeTime (a ++ s ++ b) = normalizeTime s
  /\ generateSlug (a ++ s ++ b) = generateSlug s.
Proof.
  intros Ha Hb. split.
  - unfold normalizeTime. now rewrite trim_spaces.
  - unfold generateSlug, toLowerCase. rewrite !map_app.
    rewrite trim_spaces; [reflexivity | |]; now apply toLowerCase_spaces.
Qed.

Lemma surrounding_space_ignored_witness :
  normalizeTime ("  " ++ "7:30" ++ " ") = normalizeTime "7:30"
  /\ generateSlug ("  " ++ "7:30" ++ " ") = generateSlug "7:30".
Proof. apply surrounding_space_ignored; reflexivity. Defined.

(** X5. A slug is its own slug: [generateSlug] changes nothing in a
    string it has produced. *)
Theorem generateSlug_idempotent (title : jsstring) :
  generateSlug (generateSlug title) = generateSlug title.
Proof.
  pose proof (generateSlug_chars title) as Hchars.
  pose proof (generateSlug_no_double_dash title) as Hdash.
  destruct (slug_char_kept _ Hchars) as [Hkept Hnospace].
  set (g := generateSlug title) in *.
  rewrite (generateSlug_eq g), (toLowerCase_kept _ Hkept), (trim_no_space _ Hnospace).
  rewrite (remove_all_kept _ Hkept). unfold replace_runs.
  rewrite (replace_runs_from_word is_space _ g false Hnospace).
  apply replace_dashes_single; [exact Hdash | discriminate].
Qed.

(** X6. Every ASCII letter and digit of the title is in the slug, in
    lower case; so a title with a letter or a digit has a slug that is
    not empty. *)
Theorem generateSlug_keeps_letters (title : jsstring) (c : ascii) :
  In c title -> is_lower c || is_upper c || is_digit c = true ->
  In (lower_char c) (generateSlug title) /\ generateSlug title <> [].
Proof.
  intros Hin Hc. destruct (lowered_word_char c Hc) as (Hw & Hs & Hd).
  assert (H : In (lower_char c) (generateSlug title)).
  { unfold generateSlug, replace_runs.
    apply In_replace_runs_from; [|exact Hd].
    apply In_replace_runs_from; [|exact Hs].
    apply filter_In. split.
    - apply In_trim; [|exact Hs]. now apply in_map.
    - unfold word_char in Hw. now rewrite negb_involutive, Hw. }
  split; [exact H|]. intros E. rewrite E in H. destruct H.
Qed.

Lemma generateSlug_keeps_letters_witness :
  In (lower_char "Q") (generateSlug "?? Q&A ??") /\ generateSlug "?? Q&A ??" <> [].
Proof.
  apply (generateSlug_keeps_letters "?? Q&A ??" "Q"); [|reflexivity].
  vm_compute. tauto.
Defined.

(** ** More on the addresses [emailRegex] accepts *)

Section Email.

Import Booking.

Lemma not_space_at_facts c :
  not_space_at c = true -> is_space c = false /\ is_char "@" c = false.
Proof.
  unfold not_space_at. intros H. apply negb_true_iff, orb_false_iff in H.
  exact H.
Qed.

Lemma lower_char_email c :
  not_space_at (lower_char c) = not_space_at c
  /\ (lower_char c = "@"%char <-> c = "@"%char)
  /\ (lower_char c = "."%char <-> c = "."%char).
Proof.
  destruct c as [[] [] [] [] [] [] [] []];
    (split; [reflexivity|]); split; split; intros H;
    first [reflexivity | discriminate H].
Qed.

Lemma forallb_toLowerCase s :
  forallb not_space_at (toLowerCase s) = forallb not_space_at s.
Proof.
  unfold toLowerCase. induction s as [|c s IH]; [reflexivity|]. simpl.
  now rewrite (proj1 (lower_char_email c)), IH.
Qed.

Lemma email_shape_toLowerCase s :
  email_shape (toLowerCase s) <-> email_shape s.
Proof.
  split.
  - intros (l & d & t & Heq & Hl & Hd & Ht & Hal & Had & Hat).
    unfold toLowerCase in Heq.
    apply map_eq_app in Heq as (l' & r1 & -> & <- & Heq).
    destruct r1 as [|at_ r1]; [discriminate Heq|]. injection Heq as Hat_ Heq.
    apply lower_char_email in Hat_ as ->.
    apply map_eq_app in Heq as (d' & r2 & -> & <- & Heq).
    destruct r2 as [|dot t']; [discriminate Heq|]. injection Heq as Hdot <-.
    apply lower_char_email in Hdot as ->.
    exists l', d', t'. repeat split.
    + intros ->. now apply Hl.
    + intros ->. now apply Hd.
    + intros ->. now apply Ht.
    + now rewrite <- forallb_toLowerCase.
    + now rewrite <- forallb_toLowerCase.
    + now rewrite <- forallb_toLowerCase.
  - intros (l & d & t & -> & Hl & Hd & Ht & Hal & Had & Hat).
    exists (toLowerCase l), (toLowerCase d), (toLowerCase t).
    rewrite !forallb_toLowerCase. repeat split; auto.
    + unfold toLowerCase. now rewrite !map_app.
    + destruct l; [congruence | discriminate].
    + destruct d; [congruence | discriminate].
    + destruct t; [congruence | discriminate].
Qed.

End Email.

(** X7. An address the hook accepts holds no white space and exactly one
    [@], and has five characters at least. *)
Theorem email_accepted (s : jsstring) :
  test Booking.emailRegex s = true ->
  forallb (fun c => negb (is_space c)) s = true
  /\ length (List.filter (is_char "@") s) = 1%nat
  /\ (5 <= length s)%nat.
Proof.
  intros H. apply test_emailRegex in H
    as (l & d & t & -> & Hl & Hd & Ht & Hal & Had & Hat).
  assert (Hpart : forall p, forallb Booking.not_space_at p = true ->
            forallb (fun c => negb (is_space c)) p = true
            /\ List.filter (is_char "@") p = []).
  { induction p as [|c p IH]; [now split|]. simpl. intros Hp.
    apply andb_true_iff in Hp as [Hc Hp].
    destruct (not_space_at_facts c Hc) as [-> ->]. now destruct (IH Hp). }
  destruct (Hpart l Hal) as [Sl Al], (Hpart d Had) as [Sd Ad],
    (Hpart t Hat) as [St At_].
  split; [|split].
  - rewrite !forallb_app, Sl, Sd, St. reflexivity.
  - rewrite !List.filter_app, Al, Ad, At_. reflexivity.
  - rewrite !length_app.
    destruct l; [congruence|]. destruct d; [congruence|].
    destruct t; [congruence|]. simpl. lia.
Qed.

Lemma email_accepted_witness :
  forallb (fun c => negb (is_space c)) "ann@example.com" = true
  /\ length (List.filter (is_char "@") "ann@example.com") = 1%nat
  /\ (5 <= length (list_ascii_of_string "ann@example.com"))%nat.
Proof. apply email_accepted. reflexivity. Defined.

(** X8. Lowering the case of an address, as the schema does before the
    hook runs, never changes whether [emailRegex] accepts it. *)
Theorem email_case_insensitive (s : jsstring) :
  test Booking.emailRegex (toLowerCase s) = test Booking.emailRegex s.
Proof.
  apply eq_true_iff_eq. rewrite !test_emailRegex.
  apply email_shape_toLowerCase.
Qed.

(** ** More on the connection helper *)

Section ConnectionRuns.

Import Connection.

Lemma settle_keeps p r w q s :
  s <> Pending -> attempts w !! q = Some s -> attempts (settle p r w) !! q = Some s.
Proof.
  intros Hs Hq. unfold settle.
  destruct (attempts w !! p) as [[| |]|] eqn:Ep; simpl; auto.
  rewrite list_lookup_insert_ne; [exact Hq|]. intros ->. congruence.
Qed.

Lemma from_attempts_step pr e : from_attempts pr -> from_attempts (step pr e).
Proof.
  intros (Hlen & Hconn & Hret & Hthr).
  destruct pr as [[[cn pm] att] cs]. unfold from_attempts in *. simpl in *.
  destruct e as [|p r|i]; simpl.
  - (* Call *)
    unfold enter; simpl. destruct cn as [c|]; [|destruct pm as [p|]]; simpl;
      rewrite ?length_app; simpl; split_and!; try lia; auto;
      try discriminate;
      intros i x Hi; apply lookup_app_Some in Hi as [Hi | [_ Hi]];
      try (apply list_lookup_singleton_Some in Hi as [_ Hi]; simplify_eq);
      eauto.
    + destruct (Hret _ _ Hi) as [p Hp]. exists p. now apply lookup_app_l_Some.
    + destruct (Hthr _ _ Hi) as [p Hp]. exists p. now apply lookup_app_l_Some.
  - (* Settle *)
    set (w := {| cached := {| conn := cn; promise := pm |}; attempts := att |}).
    assert (Hkeep : forall q s, s <> Pending -> att !! q = Some s ->
              attempts (settle p r w) !! q = Some s)
      by (intros q s Hs Hq; now apply (settle_keeps p r w q s Hs)).
    assert (Hsame : length (attempts (settle p r w)) = length att
                    /\ cached (settle p r w) = {| conn := cn; promise := pm |}).
    { unfold settle, w; simpl. destruct (att !! p) as [[| |]|]; simpl;
        rewrite ?length_insert; auto. }
    destruct Hsame as [Hl ->]. rewrite Hl. simpl. split_and!; auto.
    + intros c Hc. destruct (Hconn c Hc) as [q Hq]. exists q.
      now apply Hkeep.
    + intros i c Hi. destruct (Hret i c Hi) as [q Hq]. exists q.
      now apply Hkeep.
    + intros i x Hi. destruct (Hthr i x Hi) as [q Hq]. exists q.
      now apply Hkeep.
  - (* Continue *)
    destruct (cs !! i) as [[p | c | x]|] eqn:Ei; simpl;
      try (split_and!; auto; fail).
    unfold resume; simpl.
    destruct (att !! p) as [[| c | x]|] eqn:Ep; simpl;
      try (split_and!; auto; fail);
      rewrite ?length_insert; split_and!; auto.
    + intros c' Hc. injection Hc as <-. eauto.
    + intros j c' Hj. destruct (decide (i = j)) as [<- | Hne].
      * rewrite list_lookup_insert_eq in Hj by (now apply lookup_lt_Some in Ei).
        injection Hj as <-. eauto.
      * rewrite list_lookup_insert_ne in Hj by exact Hne. eauto.
    + intros j x Hj. destruct (decide (i = j)) as [<- | Hne].
      * rewrite list_lookup_insert_eq in Hj by (now apply lookup_lt_Some in Ei).
        discriminate Hj.
      * rewrite list_lookup_insert_ne in Hj by exact Hne. eauto.
    + intros j c' Hj. destruct (decide (i = j)) as [<- | Hne].
      * rewrite list_lookup_insert_eq in Hj by (now apply lookup_lt_Some in Ei).
        discriminate Hj.
      * rewrite list_lookup_insert_ne in Hj by exact Hne. eauto.
    + intros j x' Hj. destruct (decide (i = j)) as [<- | Hne].
      * rewrite list_lookup_insert_eq in Hj by (now apply lookup_lt_Some in Ei).
        injection Hj as <-. eauto.
      * rewrite list_lookup_insert_ne in Hj by exact Hne. eauto.
Qed.

Lemma from_attempts_run events : forall pr,
  from_attempts pr -> from_attempts (run pr events).
Proof.
  induction events as [|e events IH]; intros pr H; [exact H|].
  simpl. apply IH. now apply from_attempts_step.
Qed.

Lemma connected_step n k pr e : connected n k pr -> connected n k (step pr e).
Proof.
  intros ([c Hc] & Hlen & Hlater).
  destruct pr as [[[cn pm] att] cs]. unfold connected in *. simpl in *.
  subst cn. destruct e as [|p r|i]; simpl.
  - unfold enter; simpl. split_and!; eauto.
    intros i o Hk Hi. apply lookup_app_Some in Hi as [Hi | [_ Hi]]; [eauto|].
    apply list_lookup_singleton_Some in Hi as [_ <-]. eauto.
  - unfold settle; simpl. destruct (att !! p) as [[| |]|]; simpl;
      rewrite ?length_insert; split_and!; eauto.
  - destruct (cs !! i) as [[p | c' | x]|] eqn:Ei; simpl;
      try (split_and!; eauto; fail).
    assert (Hi : (i < k)%nat).
    { destruct (decide (i < k)%nat) as [|Hge]; [assumption|].
      destruct (Hlater i _ ltac:(lia) Ei) as [c' Hc']. discriminate Hc'. }
    unfold resume; simpl.
    destruct (att !! p) as [[| c' | x]|] eqn:Ep; simpl;
      try (split_and!; eauto; fail);
      split_and!; eauto; intros j o Hk Hj;
      rewrite list_lookup_insert_ne in Hj by lia; eauto.
Qed.

Lemma connected_run n k events : forall pr,
  connected n k pr -> connected n k (run pr events).
Proof.
  induction events as [|e events IH]; intros pr H; [exact H|].
  simpl. apply IH. now apply connected_step.
Qed.

End ConnectionRuns.

(** X11. Along any run, failures included: the helper makes no more
    attempts than it has been called; the connection in the cache and
    the connection a call returns are the value of an attempt that was
    fulfilled; and the error a call throws is the error of an attempt that
    was rejected. *)
Theorem connect_from_attempts (events : list Connection.event) :
  from_attempts (Connection.run Connection.start events).
Proof.
  apply from_attempts_run. unfold from_attempts, Connection.start; simpl.
  split_and!; [lia | discriminate | |]; intros i x H;
    now rewrite lookup_nil in H.
Qed.

(** X12. Once a connection is cached, whatever happens next (calls,
    settlements and continuations, failures included), the cache keeps a
    connection, no further attempt is made, and every later call returns
    a connection at once. *)
Theorem connect_stays_connected
    (pr : Connection.process) (c : Connection.connection)
    (events : list Connection.event) :
  Connection.conn (Connection.cached (Connection.state pr)) = Some c ->
  connected (length (Connection.attempts (Connection.state pr)))
    (length (Connection.calls pr)) (Connection.run pr events).
Proof.
  intros Hc. apply connected_run. unfold connected. split_and!; eauto.
  intros i o Hi Ho. apply lookup_lt_Some in Ho. lia.
Qed.

Lemma connect_stays_connected_witness :
  connected 2 2
    (Connection.run retried_process
       [Connection.Call; Connection.Settle 0 (Connection.Fulfilled 9%N);
        Connection.Call; Connection.Continue 2]).
Proof.
  exact (connect_stays_connected retried_process 7%N
           [Connection.Call; Connection.Settle 0 (Connection.Fulfilled 9%N);
            Connection.Call; Connection.Continue 2]
           eq_refl).
Defined.

(** ** Dates printed and read back *)

Section DateRoundTrip.

Local Ltac div_lia := Z.div_mod_to_equations; lia.

Lemma Number_app s c : Number (s ++ [c]) = 10 * Number s + digit_value c.
Proof. unfold Number. now rewrite fold_left_app. Qed.

Lemma Number_zeros k s : Number (replicate k "0"%char ++ s) = Number s.
Proof.
  unfold Number. rewrite fold_left_app. f_equal.
  induction k as [|k IH]; [reflexivity|]. simpl. exact IH.
Qed.

Lemma decimal_acc : forall fuel n acc,
  Js.decimal fuel n acc = Js.decimal fuel n [] ++ acc.
Proof.
  induction fuel as [|fuel IH]; intros n acc; simpl; [reflexivity|].
  destruct (n <? 10); [reflexivity|].
  rewrite (IH _ (_ :: acc)), (IH _ [_]). now rewrite <- app_assoc.
Qed.

Lemma digit_value_digit_char r :
  0 <= r <= 9 -> digit_value (digit_char r) = r.
Proof.
  intros Hr.
  assert (r = 0 \/ r = 1 \/ r = 2 \/ r = 3 \/ r = 4 \/ r = 5 \/ r = 6
          \/ r = 7 \/ r = 8 \/ r = 9) as H by lia.
  repeat destruct H as [-> | H]; try reflexivity. now subst.
Qed.

(** Reading the digits of a number gives the number back. *)
Lemma Number_decimal : forall fuel n,
  0 <= n < 10 ^ Z.of_nat (S fuel) -> Number (Js.decimal fuel n []) = n.
Proof.
  induction fuel as [|fuel IH]; intros n Hn.
  - change (10 ^ Z.of_nat 1) with 10 in Hn.
    unfold Number. cbn [Js.decimal fold_left].
    rewrite Z.mod_small, digit_value_digit_char; lia.
  - cbn [Js.decimal]. destruct (Z.ltb_spec n 10).
    + unfold Number. cbn [fold_left].
      rewrite Z.mod_small, digit_value_digit_char; lia.
    + rewrite decimal_acc, Number_app, IH.
      * rewrite digit_value_digit_char
          by (pose proof (Z.mod_pos_bound n 10); lia).
        rewrite (Z.div_mod n 10) at 3; lia.
      * split; [apply Z.div_pos; lia|].
        apply Z.div_lt_upper_bound; [lia|].
        rewrite <- Z.pow_succ_r by lia. rewrite <- Nat2Z.inj_succ. lia.
Qed.

Lemma toString_fuel n : 0 <= n -> n < 10 ^ Z.of_nat (S (Z.to_nat (Z.log2 n))).
Proof.
  intros Hn. rewrite Nat2Z.inj_succ, Z2Nat.id by apply Z.log2_nonneg.
  destruct (Z.eq_dec n 0) as [-> | Hne]; [reflexivity|].
  destruct (Z.log2_spec n) as [_ Hlt]; [lia|].
  eapply Z.lt_le_trans; [exact Hlt|].
  apply Z.pow_le_mono_l. lia.
Qed.

Lemma Number_pad k n : 0 <= n -> Number (Date.pad k n) = n.
Proof.
  intros Hn. unfold Date.pad, padStart, toString.
  replace (n <? 0) with false by (symmetry; apply Z.ltb_ge; lia).
  rewrite Number_zeros. apply Number_decimal. split; [exact Hn|].
  now apply toString_fuel.
Qed.

Lemma digits_pad k n rest :
  0 <= n < 10 ^ Z.of_nat (S k) ->
  Date.digits (S k) (Date.pad (S k) n ++ rest) = Some (n, rest).
Proof.
  intros Hn. unfold Date.digits.
  pose proof (pad_length k n Hn) as Hlen.
  pose proof (take_app_length (Date.pad (S k) n) rest) as Htake.
  pose proof (drop_app_length (Date.pad (S k) n) rest) as Hdrop.
  rewrite Hlen in Htake, Hdrop. rewrite Htake, Hdrop, Hlen, Nat.eqb_refl.
  rewrite pad_digits by lia. simpl. rewrite Number_pad by lia. reflexivity.
Qed.

Lemma parse_year_digit a s :
  is_digit a = true -> Date.parse_year (a :: s) = Date.digits 4 (a :: s).
Proof.
  intros Ha. apply is_digit_cases in Ha. simpl in Ha.
  repeat destruct Ha as [<- | Ha]; try reflexivity. destruct Ha.
Qed.

Lemma parse_year_text y rest :
  -999999 <= y <= 999999 ->
  Date.parse_year (year_text y ++ rest) = Some (y, rest).
Proof.
  intros Hy. unfold year_text.
  destruct (Z.leb_spec 0 y); [destruct (Z.leb_spec y 9999)|]; simpl.
  - assert (Hb : 0 <= y < 10 ^ Z.of_nat 4)
      by (change (10 ^ Z.of_nat 4) with 10000; lia).
    pose proof (pad_length 3 y Hb) as Hlen.
    pose proof (pad_digits 4 y ltac:(lia)) as Hd.
    pose proof (digits_pad 3 y rest Hb) as Hdig.
    destruct (Date.pad 4 y) as [|a p]; [discriminate Hlen|].
    simpl in Hd. apply andb_true_iff in Hd as [Ha _].
    change ((a :: p) ++ rest) with (a :: (p ++ rest)) in *.
    now rewrite parse_year_digit.
  - replace (y <? 0) with false by (symmetry; apply Z.ltb_ge; lia).
    cbn [app Date.parse_year]. rewrite Z.abs_eq by lia.
    apply (digits_pad 5). change (10 ^ Z.of_nat 6) with 1000000. lia.
  - replace (y <? 0) with true by (symmetry; apply Z.ltb_lt; lia).
    cbn [app Date.parse_year]. rewrite Z.abs_neq by lia.
    rewrite (digits_pad 5)
      by (change (10 ^ Z.of_nat 6) with 1000000; lia).
    simpl. destruct (Z.eqb_spec (- y) 0); [lia|].
    now rewrite Z.opp_involutive.
Qed.

(** Reading a printed date gives midnight UTC of that date. *)
Lemma parse_iso_date_text y m d :
  -999999 <= y <= 999999 -> 1 <= m <= 12 ->
  1 <= d <= Date.days_in_month y m ->
  Date.parse_iso (date_text y m d)
  = Date.TimeClip (Date.days_from_civil y m d * Date.msPerDay).
Proof.
  intros Hy Hm Hd. unfold Date.parse_iso, date_text.
  rewrite parse_year_text by exact Hy. simpl.
  unfold Date.parse_month_day.
  rewrite (digits_pad 1) by (change (10 ^ Z.of_nat 2) with 100; lia). simpl.
  assert (Hd31 : d <= 31).
  { unfold Date.days_in_month in Hd.
    destruct (m =? 2); [destruct (Date.is_leap y); lia|].
    destruct ((m =? 4) || (m =? 6) || (m =? 9) || (m =? 11)); lia. }
  rewrite <- (app_nil_r (Date.pad 2 d)).
  rewrite (digits_pad 1) by (change (10 ^ Z.of_nat 2) with 100; lia). simpl.
  replace ((1 <=? m) && (m <=? 12) && (1 <=? d)
           && (d <=? Date.days_in_month y m)) with true; [reflexivity|].
  symmetry. rewrite !andb_true_iff, !Z.leb_le. lia.
Qed.

Lemma civil_from_days_year z y m d :
  -100000000 <= z <= 100000000 ->
  Date.civil_from_days z = (y, m, d) -> -999999 <= y <= 999999.
Proof.
  unfold Date.civil_from_days. cbv zeta. intros Hz H.
  injection H as <- _ _.
  set (z' := z + 719468) in *.
  set (era := z' / 146097) in *.
  set (doe := z' - era * 146097) in *.
  assert (Hera : -700 <= era <= 700) by (subst era z'; div_lia).
  assert (Hdoe : 0 <= doe < 146097) by (subst doe era; div_lia).
  set (yoe := (doe - doe / 1460 + doe / 36524 - doe / 146096) / 365).
  assert (Hyoe : 0 <= yoe <= 399) by (subst yoe; div_lia).
  match goal with |- context [if ?b then _ else _] => destruct b end; lia.
Qed.

Lemma TimeClip_Some x t :
  Date.TimeClip x = Some t -> t = x /\ Z.abs t <= 8640000000000000.
Proof.
  unfold Date.TimeClip.
  destruct (Z.leb_spec (Z.abs x) 8640000000000000) as [Hle|]; [|discriminate].
  intros Heq. injection Heq as <-. now split.
Qed.

Lemma parse_iso_time_value s t :
  Date.parse_iso s = Some t -> Z.abs t <= 8640000000000000.
Proof.
  unfold Date.parse_iso.
  destruct (Date.parse_year s) as [[y s1]|]; [|discriminate]. simpl.
  destruct (Date.parse_month_day s1) as [[[m d] s2]|]; [|discriminate]. simpl.
  destruct ((1 <=? m) && (m <=? 12) && (1 <=? d)
            && (d <=? Date.days_in_month y m)); [|discriminate].
  destruct s2 as [|c s3]; [intros H; now apply TimeClip_Some in H|].
  destruct (Ascii.eqb_spec c "T"); [subst c | ].
  - destruct (Date.parse_time_of_day s3) as [[ms s4]|]; [|discriminate]. simpl.
    destruct (Date.parse_offset s4) as [offset|]; [|discriminate]. simpl.
    intros H. now apply TimeClip_Some in H.
  - destruct c as [[] [] [] [] [] [] [] []]; try discriminate. congruence.
Qed.

Section Host.

Variable host_parse : jsstring -> option Z.

Lemma normalizeDate_parts value t y m d :
  Date.parse host_parse value = Some t ->
  Date.civil_from_days (t / Date.msPerDay) = (y, m, d) ->
  normalizeDate host_parse value = Ok (date_text y m d).
Proof.
  intros Hparse Hcivil.
  rewrite (normalizeDate_valid _ _ _ Hparse). f_equal.
  destruct (civil_from_days_month_day _ _ _ _ Hcivil) as [Hm Hd].
  unfold Date.toISOString. rewrite Hcivil. fold (year_text y).
  assert (Hyear : forallb (fun c => negb (is_char "T" c)) (year_text y) = true).
  { unfold year_text. destruct ((0 <=? y) && (y <=? 9999)) eqn:E.
    - apply digits_not_T, pad_digits.
      apply andb_true_iff in E as [E _]. now apply Z.leb_le.
    - simpl. rewrite digits_not_T by (apply pad_digits; lia).
      now destruct (y <? 0). }
  unfold date_text.
  match goal with
  | |- Date.split_head _ (?a ++ ?b ++ ?c ++ ?e ++ ?f ++ ?g ++ ?rest) = _ =>
      replace (a ++ b ++ c ++ e ++ f ++ g ++ rest)
        with ((a ++ b ++ c ++ e ++ f) ++ "T"%char :: rest)
        by (now rewrite <- !app_assoc)
  end.
  apply split_head_app.
  rewrite !forallb_app, Hyear.
  rewrite (digits_not_T (Date.pad 2 m)), (digits_not_T (Date.pad 2 d))
    by (apply pad_digits; lia).
  reflexivity.
Qed.

Lemma parse_time_value value t :
  gives_time_values host_parse ->
  Date.parse host_parse value = Some t -> Z.abs t <= 8640000000000000.
Proof.
  intros Hhost. unfold Date.parse.
  destruct (Date.parse_iso value) as [t'|] eqn:E.
  - intros H. injection H as <-. now apply parse_iso_time_value in E.
  - apply Hhost.
Qed.

Lemma normalizeDate_idem value r :
  gives_time_values host_parse ->
  normalizeDate host_parse value = Ok r ->
  Date.parse_iso r <> None /\ normalizeDate host_parse r = Ok r.
Proof.
  intros Hhost Hr.
  destruct (Date.parse host_parse value) as [t|] eqn:Hparse;
    [|rewrite (normalizeDate_invalid _ _ Hparse) in Hr; discriminate Hr].
  pose proof (parse_time_value _ _ Hhost Hparse) as Ht.
  destruct (Date.civil_from_days (t / Date.msPerDay)) as [[y m] d] eqn:Hcivil.
  rewrite (normalizeDate_parts _ _ _ _ _ Hparse Hcivil) in Hr.
  injection Hr as <-.
  pose proof (civil_from_days_valid (t / Date.msPerDay)) as Hvalid.
  pose proof (days_from_civil_from_days (t / Date.msPerDay)) as Hdays.
  rewrite Hcivil in Hvalid, Hdays. destruct Hvalid as [Hm Hd].
  assert (Hday : -100000000 <= t / Date.msPerDay <= 100000000)
    by (unfold Date.msPerDay; div_lia).
  pose proof (civil_from_days_year _ _ _ _ Hday Hcivil) as Hy.
  assert (Hiso : Date.parse_iso (date_text y m d)
                 = Some (t / Date.msPerDay * Date.msPerDay)).
  { rewrite (parse_iso_date_text _ _ _ Hy Hm Hd), Hdays. unfold Date.TimeClip.
    replace (Z.abs (t / Date.msPerDay * Date.msPerDay) <=? 8640000000000000)
      with true; [reflexivity|].
    symmetry. apply Z.leb_le. unfold Date.msPerDay in *. lia. }
  split; [rewrite Hiso; discriminate|].
  apply normalizeDate_parts with (t := t / Date.msPerDay * Date.msPerDay).
  - unfold Date.parse. now rewrite Hiso.
  - rewrite Z.div_mul by discriminate. exact Hcivil.
Qed.

End Host.

Lemma is_expanded_date_pads sign y m d :
  is_char "+" sign || is_char "-" sign = true ->
  length y = 6%nat -> length m = 2%nat -> length d = 2%nat ->
  forallb is_digit y = true -> forallb is_digit m = true ->
  forallb is_digit d = true ->
  is_expanded_date (sign :: y ++ "-" ++ m ++ "-" ++ d) = true.
Proof.
  intros Hsign Hly Hlm Hld Hy Hm Hd.
  destruct y as [|y1 [|y2 [|y3 [|y4 [|y5 [|y6 [|? ?]]]]]]];
    try discriminate Hly.
  destruct m as [|m1 [|m2 [|? ?]]]; try discriminate Hlm.
  destruct d as [|d1 [|d2 [|? ?]]]; try discriminate Hld.
  simpl in Hy, Hm, Hd.
  repeat match goal with
  | H : _ && _ = true |- _ => apply andb_true_iff in H as [? H]
  end.
  unfold is_expanded_date.
  change (list_ascii_of_string "-") with ["-"%char].
  cbn [app forallb]. rewrite Hsign.
  repeat match goal with
  | H : is_digit _ = true |- _ => rewrite H; clear H
  end.
  reflexivity.
Qed.

End DateRoundTrip.

(** X1. For a date the runtime reads as the instant [t], [normalizeDate]
    returns the UTC calendar date of [t]: the year [y], month [m] and
    day [d] of the day number [t / msPerDay], which make a date of the
    calendar and count back to that day number.  The result is
    [YYYY-MM-DD] for a year from 0 to 9999, and otherwise a sign, [-]
    before the year 0 and [+] after 9999, the year in six digits and
    [-MM-DD]; so it has the form [YYYY-MM-DD] exactly when the year lies
    from 0 to 9999.  The six digits are those of a time value, which is
    at most 8.64e15 ms away from the epoch. *)
Theorem normalizeDate_calendar_date
    (host_parse : jsstring -> option Z) value t y m d :
  Date.parse host_parse value = Some t ->
  Date.civil_from_days (t / Date.msPerDay) = (y, m, d) ->
  (Date.days_from_civil y m d = t / Date.msPerDay
   /\ 1 <= m <= 12 /\ 1 <= d <= Date.days_in_month y m)
  /\ exists r,
      normalizeDate host_parse value = Ok r
      /\ (0 <= y <= 9999 ->
          r = Date.pad 4 y ++ "-" ++ Date.pad 2 m ++ "-" ++ Date.pad 2 d)
      /\ (y < 0 ->
          r = "-" ++ Date.pad 6 (- y) ++ "-" ++ Date.pad 2 m
                  ++ "-" ++ Date.pad 2 d)
      /\ (9999 < y ->
          r = "+" ++ Date.pad 6 y ++ "-" ++ Date.pad 2 m
                  ++ "-" ++ Date.pad 2 d)
      /\ (is_YYYY_MM_DD r = true <-> 0 <= y <= 9999)
      /\ (Z.abs t <= 8640000000000000 -> ~ 0 <= y <= 9999 ->
          is_expanded_date r = true).
Proof.
  intros Hparse Hcivil.
  pose proof (civil_from_days_valid (t / Date.msPerDay)) as Hvalid.
  pose proof (days_from_civil_from_days (t / Date.msPerDay)) as Hdays.
  rewrite Hcivil in Hvalid, Hdays. destruct Hvalid as [Hm Hd].
  split; [now split_and!|].
  destruct (civil_from_days_month_day _ _ _ _ Hcivil) as [_ Hd31].
  destruct (normalizeDate_form host_parse _ _ _ _ _ Hparse Hcivil)
    as (r & Hr & Hin & Hout).
  pose proof (normalizeDate_parts host_parse _ _ _ _ _ Hparse Hcivil) as Hr'.
  rewrite Hr in Hr'. injection Hr' as ->.
  exists (date_text y m d). split; [exact Hr|].
  assert (Hlm : length (Date.pad 2 m) = 2%nat)
    by (apply pad_length; change (10 ^ Z.of_nat 2) with 100; lia).
  assert (Hld : length (Date.pad 2 d) = 2%nat)
    by (apply pad_length; change (10 ^ Z.of_nat 2) with 100; lia).
  split_and!.
  - intros Hy. now apply Hin.
  - intros Hy. unfold date_text, year_text.
    replace ((0 <=? y) && (y <=? 9999)) with false
      by (symmetry; apply andb_false_iff; left; apply Z.leb_gt; lia).
    replace (y <? 0) with true by (symmetry; apply Z.ltb_lt; lia).
    replace (Z.abs y) with (- y) by lia. reflexivity.
  - intros Hy. unfold date_text, year_text.
    replace ((0 <=? y) && (y <=? 9999)) with false
      by (symmetry; apply andb_false_iff; right; apply Z.leb_gt; lia).
    replace (y <? 0) with false by (symmetry; apply Z.ltb_ge; lia).
    replace (Z.abs y) with y by lia. reflexivity.
  - split.
    + intros Hform. destruct (Z_le_dec 0 y) as [H0|H0];
        [destruct (Z_le_dec y 9999) as [H9|H9]; [lia|]|];
        rewrite Hout in Hform by lia; discriminate Hform.
    + intros Hy. now apply Hin.
  - intros Ht Hy.
    assert (Hday : -100000000 <= t / Date.msPerDay <= 100000000)
      by (unfold Date.msPerDay; Z.div_mod_to_equations; lia).
    pose proof (civil_from_days_year _ _ _ _ Hday Hcivil) as Hyear.
    unfold date_text, year_text.
    replace ((0 <=? y) && (y <=? 9999)) with false
      by (symmetry; apply andb_false_iff;
          destruct (Z.leb_spec 0 y); [right; apply Z.leb_gt; lia | now left]).
    apply is_expanded_date_pads;
      try assumption; try (apply pad_digits; lia).
    + now destruct (y <? 0).
    + apply pad_length. change (10 ^ Z.of_nat 6) with 1000000. lia.
Qed.

(** X1 at a date before the year 0, given with an offset: 23:30 on
    15 March, two hours behind UTC, is 16 March in UTC. *)
Lemma normalizeDate_calendar_date_witness :
  normalizeDate (fun _ => None) "-000043-03-15T23:30:00-02:00"
  = Ok "-000043-03-16".
Proof.
  destruct (normalizeDate_calendar_date (fun _ => None)
              "-000043-03-15T23:30:00-02:00" (-63517732200000) (-43) 3 16)
    as (_ & r & Hr & _ & Hbefore & _);
    [vm_compute; reflexivity | vm_compute; reflexivity |].
  rewrite Hr, Hbefore by lia. reflexivity.
Defined.

(** X2. [normalizeDate] leaves its own results as they are: a date it
    has returned is read again by every runtime and returned unchanged. *)
Theorem normalizeDate_idempotent
    (host_parse : jsstring -> option Z) (value r : jsstring) :
  gives_time_values host_parse ->
  normalizeDate host_parse value = Ok r ->
  normalizeDate host_parse r = Ok r.
Proof. intros Hhost Hr. now apply (normalizeDate_idem _ value). Qed.

Lemma normalizeDate_idempotent_witness :
  normalizeDate (fun _ => None) "2024-03-01" = Ok "2024-03-01".
Proof.
  apply (normalizeDate_idempotent _ "2024-02-29T23:30:00-05:00").
  - intros s t H. discriminate H.
  - vm_compute. reflexivity.
Defined.

(** ** The event the hook leaves *)

Section SavedEvent.

Import Event.

Variable host_parse : jsstring -> option Z.

(** The document of a successful save. *)
Lemma preSave_Ok titleModified doc saved :
  preSave host_parse titleModified doc = Ok saved ->
  for_each (check_string_field doc) requiredStringFields = Ok tt
  /\ for_each (check_array_field doc) requiredArrayFields = Ok tt
  /\ exists d t,
       normalizeDate host_parse (string_of (date doc)) = Ok d
       /\ normalizeTime (string_of (time doc)) = Ok t
       /\ saved =
            if titleModified || falsy (slug doc)
            then set_slug (set_time (set_date doc d) t)
                   (generateSlug (string_of (title doc)))
            else set_time (set_date doc d) t.
Proof.
  unfold preSave.
  destruct (for_each (check_string_field doc) requiredStringFields) as [[]|];
    [|discriminate].
  destruct (for_each (check_array_field doc) requiredArrayFields) as [[]|];
    [|discriminate].
  destruct (normalizeDate host_parse (string_of (date doc))) as [d|];
    [|discriminate].
  destruct (normalizeTime _) as [t|]; [|discriminate].
  simpl in *. intros H. split; [reflexivity|]. split; [reflexivity|].
  exists d, t. split; [reflexivity|]. split; [reflexivity|].
  destruct (titleModified || falsy (slug doc)); now injection H as <-.
Qed.

Lemma for_each_Ok_iff doc :
  (for_each (check_string_field doc) requiredStringFields = Ok tt
   /\ for_each (check_array_field doc) requiredArrayFields = Ok tt)
  <-> forall f, offending doc f = false.
Proof.
  split.
  - intros [Hs Ha] f. destruct (offending doc f) eqn:Ef; [|reflexivity].
    exfalso. apply offending_checked in Ef as Hin.
    apply in_app_or in Hin as [Hin | Hin].
    + destruct (for_each_first (check_string_field doc) requiredStringFields)
        as [[_ Hall] | (_ & _ & _ & msg & _ & _ & _ & Hthrow)];
        [|congruence].
      destruct (check_string_field_spec doc f Hin) as [[_ H] | [_ H]];
        [congruence|]. rewrite (Hall f Hin) in H. discriminate H.
    + destruct (for_each_first (check_array_field doc) requiredArrayFields)
        as [[_ Hall] | (_ & _ & _ & msg & _ & _ & _ & Hthrow)];
        [|congruence].
      destruct (check_array_field_spec doc f Hin) as [[_ H] | (_ & m & H & _)];
        [congruence|]. rewrite (Hall f Hin) in H. discriminate H.
  - intros Hno. split.
    + destruct (for_each_first (check_string_field doc) requiredStringFields)
        as [[Hok _] | (before & g & after & msg & Heq & _ & Hg & _)];
        [exact Hok|].
      assert (Hin : In g requiredStringFields)
        by (rewrite Heq; apply in_or_app; right; now left).
      destruct (check_string_field_spec doc g Hin) as [[H _] | [H _]];
        [congruence|]. rewrite Hno in H. discriminate H.
    + destruct (for_each_first (check_array_field doc) requiredArrayFields)
        as [[Hok _] | (before & g & after & msg & Heq & _ & Hg & _)];
        [exact Hok|].
      assert (Hin : In g requiredArrayFields)
        by (rewrite Heq; apply in_or_app; right; now left).
      destruct (check_array_field_spec doc g Hin) as [[H _] | [H _]];
        [congruence|]. rewrite Hno in H. discriminate H.
Qed.

Lemma normalizeTime_not_blank s r :
  normalizeTime s = Ok r -> is_HHMM r = true /\ blank (Str r) = false.
Proof.
  intros H. apply normalizeTime_Ok in H as (h & m & Hs & Hh & Hm & ->).
  destruct Hs as (Hlh & Hlm & Hdh & Hdm & _).
  split; [now apply is_HHMM_two_digits|].
  unfold blank.
  destruct (two_digits h) as [|c rest] eqn:E;
    [destruct Hlh as [Hl | Hl];
       destruct h as [|a [|b [|? ?]]]; discriminate|].
  assert (Hc : is_digit c = true).
  { destruct Hlh as [Hl | Hl];
      destruct h as [|a [|b [|? ?]]]; try discriminate Hl;
      injection E as <- _; [reflexivity|].
    now apply all_digits_cons in Hdh as [Ha _]. }
  apply Nat.eqb_neq. intros Hlen.
  apply (trim_head_not_empty c (rest ++ ":" ++ m) (digit_not_space c Hc)).
  now apply length_zero_iff_nil.
Qed.

Lemma date_text_not_blank y m d : blank (Str (date_text y m d)) = false.
Proof.
  unfold blank. apply Nat.eqb_neq. intros Hlen.
  apply length_zero_iff_nil in Hlen. revert Hlen.
  unfold date_text, year_text.
  destruct ((0 <=? y) && (y <=? 9999)) eqn:E.
  - apply andb_true_iff in E as [Hlo Hhi].
    apply Z.leb_le in Hlo, Hhi.
    assert (Hb : 0 <= y < 10 ^ Z.of_nat 4)
      by (change (10 ^ Z.of_nat 4) with 10000; lia).
    pose proof (pad_length 3 y Hb) as Hl.
    pose proof (pad_digits 4 y Hlo) as Hd.
    destruct (Date.pad 4 y) as [|c p]; [discriminate Hl|].
    simpl in Hd. apply andb_true_iff in Hd as [Hc _].
    apply trim_head_not_empty. now apply digit_not_space.
  - apply trim_head_not_empty. now destruct (y <? 0).
Qed.

Lemma normalizeDate_not_blank value r :
  normalizeDate host_parse value = Ok r -> blank (Str r) = false.
Proof.
  intros Hr.
  destruct (Date.parse host_parse value) as [t|] eqn:Hparse;
    [|rewrite (normalizeDate_invalid _ _ Hparse) in Hr; discriminate Hr].
  destruct (Date.civil_from_days (t / Date.msPerDay)) as [[y m] d] eqn:Hcivil.
  rewrite (normalizeDate_parts _ _ _ _ _ _ Hparse Hcivil) in Hr.
  injection Hr as <-. apply date_text_not_blank.
Qed.

Lemma preSave_saved titleModified doc saved :
  preSave host_parse titleModified doc = Ok saved ->
  (forall f, offending saved f = false)
  /\ (exists d, date saved = Str d
                /\ normalizeDate host_parse (string_of (date doc)) = Ok d)
  /\ (exists t, time saved = Str t
                /\ normalizeTime (string_of (time doc)) = Ok t)
  /\ slug saved = (if titleModified || falsy (slug doc)
                   then Str (generateSlug (string_of (title doc)))
                   else slug doc)
  /\ (forall f, f <> Date -> f <> Time -> f <> Slug -> get saved f = get doc f).
Proof.
  intros H. apply preSave_Ok in H as (Hs & Ha & d & t & Hd & Ht & ->).
  pose proof (proj1 (for_each_Ok_iff doc) (conj Hs Ha)) as Hno.
  pose proof (normalizeDate_not_blank _ _ Hd) as Hbd.
  destruct (normalizeTime_not_blank _ _ Ht) as [_ Hbt].
  destruct (titleModified || falsy (slug doc)); (split; [|split; [|split; [|split]]]);
    try (intros f; pose proof (Hno f) as Hf; destruct f; simpl in *; auto; fail);
    try (intros f H1 H2 H3; destruct f; simpl; congruence);
    eauto.
Qed.

Lemma preSave_resave titleModified doc saved :
  gives_time_values host_parse ->
  preSave host_parse titleModified doc = Ok saved ->
  preSave host_parse false saved = Ok saved.
Proof.
  intros Hhost H.
  destruct (preSave_saved _ _ _ H)
    as (Hno & (d & Hd & Hnd) & (t & Ht & Hnt) & Hslug & Hframe).
  apply for_each_Ok_iff in Hno as [Hs Ha].
  pose proof (proj2 (normalizeDate_idem _ _ _ Hhost Hnd)) as Hd'.
  pose proof (normalizeTime_idem _ _ Hnt) as Ht'.
  assert (Htitle : title saved = title doc) by (now apply (Hframe Title)).
  assert (Hregen : falsy (slug saved) = true ->
            slug saved = Str (generateSlug (string_of (title saved)))).
  { rewrite Hslug, Htitle.
    destruct (titleModified || falsy (slug doc)) eqn:E; [reflexivity|].
    apply orb_false_iff in E as [_ E]. congruence. }
  clear H Hframe Hslug Htitle Hnd Hnt.
  unfold preSave. rewrite Hs, Ha. clear Hs Ha.
  destruct saved as [ti sl de ov im ve lo da tm mo au ag org tg].
  cbn [date time slug title] in *. subst da tm.
  cbn [string_of date time]. rewrite Hd'.
  cbn [set_date time string_of]. rewrite Ht'.
  cbn [set_date set_time slug title orb date time description overview image
       venue location mode audience agenda organizer tags].
  destruct (falsy sl) eqn:Ef; [|reflexivity].
  unfold set_slug. cbn [date time slug title description overview image
       venue location mode audience agenda organizer tags].
  now rewrite <- (Hregen eq_refl).
Qed.

End SavedEvent.

(** X9. The document of a successful save passes every check of the
    hook; its date and time are the normalized date and time of the
    document saved, the time of the form [HH:MM]; its slug is the slug of
    the title when the title was modified or the slug was falsy, and the
    slug it had otherwise; and no other field is changed. *)
Theorem Event_preSave_saved
    (host_parse : jsstring -> option Z) (titleModified : bool)
    (doc saved : Event.EventDocument) :
  Event.preSave host_parse titleModified doc = Ok saved ->
  (forall f, offending saved f = false)
  /\ (exists d, Event.date saved = Str d
        /\ normalizeDate host_parse (Event.string_of (Event.date doc)) = Ok d)
  /\ (exists t, Event.time saved = Str t /\ is_HHMM t = true
        /\ normalizeTime (Event.string_of (Event.time doc)) = Ok t)
  /\ Event.slug saved
     = (if titleModified || Event.falsy (Event.slug doc)
        then Str (generateSlug (Event.string_of (Event.title doc)))
        else Event.slug doc)
  /\ (forall f, f <> Event.Date -> f <> Event.Time -> f <> Event.Slug ->
        Event.get saved f = Event.get doc f).
Proof.
  intros H. destruct (preSave_saved _ _ _ _ H)
    as (Hno & Hd & (t & Ht & Hnt) & Hslug & Hframe).
  split_and!; auto. exists t. split_and!; auto.
  now apply normalizeTime_not_blank in Hnt.
Qed.

Lemma Event_preSave_saved_witness :
  (forall f, offending saved_punctuation_event f = false)
  /\ (exists d, Event.date saved_punctuation_event = Str d
        /\ normalizeDate (fun _ => None)
             (Event.string_of (Event.date punctuation_event)) = Ok d)
  /\ (exists t, Event.time saved_punctuation_event = Str t /\ is_HHMM t = true
        /\ normalizeTime (Event.string_of (Event.time punctuation_event)) = Ok t)
  /\ Event.slug saved_punctuation_event
     = (if true || Event.falsy (Event.slug punctuation_event)
        then Str (generateSlug (Event.string_of (Event.title punctuation_event)))
        else Event.slug punctuation_event)
  /\ (forall f, f <> Event.Date -> f <> Event.Time -> f <> Event.Slug ->
        Event.get saved_punctuation_event f = Event.get punctuation_event f).
Proof.
  apply (Event_preSave_saved (fun _ => None) true punctuation_event).
  vm_compute. reflexivity.
Defined.

(** X10. Saving again a document the hook has saved, its title not
    modified since, succeeds and changes nothing. *)
Theorem Event_preSave_idempotent
    (host_parse : jsstring -> option Z) (titleModified : bool)
    (doc saved : Event.EventDocument) :
  gives_time_values host_parse ->
  Event.preSave host_parse titleModified doc = Ok saved ->
  Event.preSave host_parse false saved = Ok saved.
Proof. apply preSave_resave. Qed.

Lemma Event_preSave_idempotent_witness :
  Event.preSave (fun _ => None) false saved_punctuation_event
  = Ok saved_punctuation_event.
Proof.
  apply (Event_preSave_idempotent _ true punctuation_event).
  - intros s t H. discriminate H.
  - vm_compute. reflexivity.
Defined.

(** ** The errors of the Event hook, and the length of a slug *)

Section HookErrors.

Import Event.

Lemma length_trimStart s : (length (trimStart s) <= length s)%nat.
Proof.
  induction s as [|c s IH]; [reflexivity|]. simpl.
  destruct (is_space c); simpl; lia.
Qed.

Lemma length_trim s : (length (trim s) <= length s)%nat.
Proof.
  unfold trim, trimEnd. rewrite length_rev.
  etransitivity; [apply length_trimStart|]. rewrite length_rev.
  apply length_trimStart.
Qed.

Lemma length_replace_runs_from cls c : forall s b,
  (length (replace_runs_from cls [c] b s) <= length s)%nat.
Proof.
  induction s as [|x s IH]; intros b; [reflexivity|]. simpl.
  destruct (cls x); [destruct b|]; simpl;
    [specialize (IH true) | specialize (IH true) | specialize (IH false)]; lia.
Qed.

End HookErrors.

(** X13. The hook has three kinds of errors and no other: a message
    that names a field, and then a field that offends; "Invalid event
    date", when no field offends and the runtime does not read the date;
    and one of the two errors of [normalizeTime], when no field offends
    and the date is read. *)
Theorem Event_preSave_errors
    (host_parse : jsstring -> option Z) (titleModified : bool)
    (doc : Event.EventDocument) (msg : jsstring) :
  Event.preSave host_parse titleModified doc = Throw msg ->
  (exists g, offending doc g = true /\ names_field msg g)
  \/ ((forall f, offending doc f = false)
      /\ Date.parse host_parse (Event.string_of (Event.date doc)) = None
      /\ msg = "Invalid event date")
  \/ ((forall f, offending doc f = false)
      /\ Date.parse host_parse (Event.string_of (Event.date doc)) <> None
      /\ (msg = "Invalid event time format (expected HH:mm)"
          \/ msg = "Invalid event time value")).
Proof.
  intros H.
  destruct (for_each_Ok_iff doc) as [Hall _].
  unfold Event.preSave in H.
  destruct (for_each_first (Event.check_string_field doc) Event.requiredStringFields)
    as [[Hs _] | (before & g & after & m1 & Heq & _ & Hg & Hthrow)].
  - rewrite Hs in H.
    destruct (for_each_first (Event.check_array_field doc) Event.requiredArrayFields)
      as [[Ha _] | (before & g & after & m1 & Heq & _ & Hg & Hthrow)].
    + rewrite Ha in H. specialize (Hall (conj Hs Ha)). right.
      unfold normalizeDate in H.
      destruct (Date.parse host_parse (Event.string_of (Event.date doc)))
        as [t|]; [|left; split_and!; auto; congruence].
      right. split_and!; [exact Hall | discriminate |].
      cbv zeta in H. cbn [Event.time Event.set_date] in H.
      unfold normalizeTime in H.
      destruct (String_match timeRegex _) as [m|];
        [|left; congruence].
      cbv zeta in H.
      destruct (_ || _) in H; [right; congruence|].
      cbn [Event.set_time Event.slug] in H.
      destruct (titleModified || _) in H; discriminate H.
    + rewrite Hthrow in H. injection H as ->.
      assert (Hin : In g Event.requiredArrayFields)
        by (rewrite Heq; apply in_or_app; right; now left).
      destruct (check_array_field_spec doc g Hin) as [[Ho _] | (Ho & m & Hm & Hn)];
        [congruence|].
      left. exists g. split; [exact Ho|]. congruence.
  - rewrite Hthrow in H. injection H as ->.
    assert (Hin : In g Event.requiredStringFields)
      by (rewrite Heq; apply in_or_app; right; now left).
    destruct (check_string_field_spec doc g Hin) as [[Ho _] | [Ho Hm]];
      [congruence|].
    left. exists g. split; [exact Ho|]. left. congruence.
Qed.

Lemma Event_preSave_errors_witness :
  (exists g, offending venueless_event g = true
     /\ names_field
          ("Field " ++ Event.quoted "venue" ++ " is required") g)
  \/ ((forall f, offending venueless_event f = false)
      /\ Date.parse (fun _ => None)
           (Event.string_of (Event.date venueless_event)) = None
      /\ "Field " ++ Event.quoted "venue" ++ " is required"
         = "Invalid event date")
  \/ ((forall f, offending venueless_event f = false)
      /\ Date.parse (fun _ => None)
           (Event.string_of (Event.date venueless_event)) <> None
      /\ ("Field " ++ Event.quoted "venue" ++ " is required"
          = "Invalid event time format (expected HH:mm)"
          \/ "Field " ++ Event.quoted "venue" ++ " is required"
             = "Invalid event time value")).
Proof.
  apply (Event_preSave_errors (fun _ => None) false venueless_event).
  vm_compute. reflexivity.
Defined.

(** X14. A slug is never longer than its title. *)
Theorem generateSlug_length (title : jsstring) :
  (length (generateSlug title) <= length title)%nat.
Proof.
  unfold generateSlug, replace_runs, remove_all, toLowerCase.
  etransitivity; [apply length_replace_runs_from|].
  etransitivity; [apply length_replace_runs_from|].
  etransitivity; [apply filter_length_le|].
  etransitivity; [apply length_trim|].
  now rewrite length_map.
Qed.

(** X15. The Booking hook reads the Event collection at the id of the
    booking only: with a well-formed address the save succeeds once the
    event is there and fails once it is deleted, and an insertion or a
    deletion at another id changes nothing. *)
Theorem Booking_preSave_collection
    (events : gmap Booking.ObjectId Event.EventDocument)
    (doc : Booking.BookingDocument) (ev : Event.EventDocument) :
  test Booking.emailRegex (Booking.email doc) = true ->
  Booking.preSave (<[Booking.eventId doc := ev]> events) doc = Ok tt
  /\ Booking.preSave (delete (Booking.eventId doc) events) doc
     = Throw "Referenced event does not exist"
  /\ (forall id, id <> Booking.eventId doc ->
        Booking.preSave (<[id := ev]> events) doc = Booking.preSave events doc
        /\ Booking.preSave (delete id events) doc = Booking.preSave events doc).
Proof.
  intros He. unfold Booking.preSave, Booking.Event_exists. rewrite He. simpl.
  split_and!.
  - now rewrite lookup_insert_eq.
  - now rewrite lookup_delete_eq.
  - intros id Hid. now rewrite lookup_insert_ne, lookup_delete_ne.
Qed.

Lemma Booking_preSave_collection_witness :
  Booking.preSave (<[7%N := punctuation_event]> ∅)
    {| Booking.eventId := 7%N; Booking.email := "ann@example.com" |} = Ok tt
  /\ Booking.preSave (delete 7%N ∅)
       {| Booking.eventId := 7%N; Booking.email := "ann@example.com" |}
     = Throw "Referenced event does not exist"
  /\ (forall id, id <> 7%N ->
        Booking.preSave (<[id := punctuation_event]> ∅)
          {| Booking.eventId := 7%N; Booking.email := "ann@example.com" |}
        = Booking.preSave ∅
            {| Booking.eventId := 7%N; Booking.email := "ann@example.com" |}
        /\ Booking.preSave (delete id ∅)
             {| Booking.eventId := 7%N; Booking.email := "ann@example.com" |}
           = Booking.preSave ∅
               {| Booking.eventId := 7%N; Booking.email := "ann@example.com" |}).
Proof.
  apply (Booking_preSave_collection ∅
           {| Booking.eventId := 7%N; Booking.email := "ann@example.com" |}
           punctuation_event).
  reflexivity.
Defined.
